(** * angular-reflux: the action-dispatch / state-store engine of [src/reflux.ts]

    A shallow embedding of the engine (the [Reflux] namespace, [StateStream],
    [Action.identity], [Action.subscribe] and [Action.dispatch]) together with
    the properties of the specification that concern it.

    Modelling conventions.
    - JavaScript values are trees; objects and arrays carry the location of the
      heap cell that holds them, so that [===] on them is reference identity.
      Numbers are integers (no floating point, no NaN).
    - The RxJS operators used by [dispatch] ([from], [flatMap], [map],
      [skipWhile], [catch], [share]) and [BehaviorSubject] are given their
      documented behaviour, written out as state passing.
    - An [Observable] returned by a handler is a script: the notifications it
      sends while it is being subscribed, and those it sends later.  The order
      in which later notifications of different handlers arrive is an input
      (a schedule). *)

From stdpp Require Import gmap strings list pretty.
From Stdlib Require Import ZArith Lia.

Set Warnings "-register-all".

(** ** JavaScript values *)

Inductive value : Type :=
| VUndefined
| VNull
| VBool (b : bool)
| VNum (n : Z)
| VStr (s : string)
| VArr (loc : nat) (items : list value)
| VObj (loc : nat) (fields : list (string * value)).

(** [a === b]: primitives by value, objects and arrays by reference. *)
Definition strict_eq (a b : value) : bool :=
  match a, b with
  | VUndefined, VUndefined => true
  | VNull, VNull => true
  | VBool x, VBool y => Bool.eqb x y
  | VNum x, VNum y => Z.eqb x y
  | VStr x, VStr y => String.eqb x y
  | VArr l _, VArr l' _ => Nat.eqb l l'
  | VObj l _, VObj l' _ => Nat.eqb l l'
  | _, _ => false
  end.

(** [a !== b] *)
Definition strict_neq (a b : value) : bool := negb (strict_eq a b).

(** [v == undefined] (loose equality: true of [undefined] and of [null]). *)
Definition is_undefined (v : value) : bool :=
  match v with
  | VUndefined | VNull => true
  | _ => false
  end.

(** [obj[key]] on the field list of an object. *)
Fixpoint get (key : string) (fs : list (string * value)) : option value :=
  match fs with
  | [] => None
  | (k, v) :: fs' => if String.eqb k key then Some v else get key fs'
  end.

(** [obj[key] = v] on a copy: an existing key keeps its position, a new key
    is appended. *)
Fixpoint set (key : string) (v : value) (fs : list (string * value))
  : list (string * value) :=
  match fs with
  | [] => [(key, v)]
  | (k, x) :: fs' =>
      if String.eqb k key then (k, v) :: fs' else (k, x) :: set key v fs'
  end.


(** ** StateStream (reflux.ts, lines 78-117) *)

(** A state selector; [None] is the selector throwing. *)
Definition StateSelector : Type := value -> option value.

(** [function select(state, selector)], lines 109-117.  The second argument
    is [None] when [selector == undefined]. *)
Definition select (state : value) (selector : option StateSelector) : value :=
  if is_undefined state then VUndefined
  else match selector with
       | None => state
       | Some f => match f state with
                   | Some v => v
                   | None => VUndefined
                   end
       end.

(** One subscription made with [stateStream.select(selector).subscribe(consumer)]:
    the closure of lines 90-104.  [received] lists the arguments of the calls
    [subscriber.next(selection)], oldest first: the consumer's invocations. *)
Record Subscriber := {
  selector : option StateSelector;
  previousState : value;
  received : list value
}.

Definition Subscriber_create (sel : option StateSelector) : Subscriber :=
  {| selector := sel; previousState := VUndefined; received := [] |}.

(** The [next] callback of lines 93-99. *)
Definition Subscriber_next (state : value) (s : Subscriber) : Subscriber :=
  let selection := select state (selector s) in
  if strict_neq selection (select (previousState s) (selector s))
  then {| selector := selector s;
          previousState := state;
          received := received s ++ [selection] |}
  else s.

(** [StateStream extends BehaviorSubject]: the current value, the observers
    in subscription order, and (as a trace) every value passed to [next]. *)
Record StateStream := {
  current : value;
  observers : list Subscriber;
  published : list value
}.

Definition StateStream_create (initial : value) : StateStream :=
  {| current := initial; observers := []; published := [] |}.

(** [stateStream.next(state)]: the value is stored and handed to every
    observer. *)
Definition StateStream_next (state : value) (st : StateStream) : StateStream :=
  {| current := state;
     observers := map (Subscriber_next state) (observers st);
     published := published st ++ [state] |}.

(** [stateStream.select(selector).subscribe(consumer)]: the new observer is
    registered with the BehaviorSubject, which hands it its current value at
    once. *)
Definition StateStream_select (sel : option StateSelector) (st : StateStream)
  : StateStream :=
  {| current := current st;
     observers := observers st ++
                  [Subscriber_next (current st) (Subscriber_create sel)];
     published := published st |}.

(** ** Actions, handlers and the observables they return *)

(** An action instance: its class ([this.constructor], a reference to the
    constructor function) and whatever payload the caller defined. *)
Record Action := {
  constructor : nat;
  payload : value
}.

(** What travels on the error channel of the pipeline. *)
Inductive failure : Type :=
| StoreMustReturnObservable      (* the string thrown on line 221 *)
| TypeError                      (* raised by a library call *)
| Thrown (e : value).            (* raised by a handler or its observable *)

(** A value emitted by a handler's observable: [state instanceof
    ReplaceableState] or not (line 228). *)
Inductive emitted : Type :=
| Plain (state : value)
| ReplaceableState (state : value).

Inductive notification : Type :=
| Next (x : emitted)
| Error (e : failure)
| Complete.

(** An observable as a handler returns it: what it sends during [subscribe],
    and what it sends afterwards.  Nothing is taken from either list after a
    terminal notification. *)
Record Observable := {
  sync : list notification;
  later : list notification
}.

(** The outcome of calling a handler. *)
Inductive returned : Type :=
| Throws (e : failure)
| NotObservable (v : value)
| Returns (o : Observable).

(** [interface ActionObserver]: [(state, action) => Observable]. *)
Definition ActionObserver : Type := value -> Action -> returned.

(** ** namespace Reflux (lines 122-129) *)

Record Reflux := {
  lastAction : option Action;
  state : value;
  stateStream : StateStream;
  subscriptions : gmap string (list ActionObserver);
  actionIdentities : list nat;
  heap : nat                      (* the next free location of the heap *)
}.

(** The namespace when the module is loaded: [state = Immutable.from({})],
    [stateStream = new StateStream(Reflux.state)]. *)
Definition Reflux_init : Reflux :=
  {| lastAction := None;
     state := VObj 0 [];
     stateStream := StateStream_create (VObj 0 []);
     subscriptions := ∅;
     actionIdentities := [];
     heap := 1 |}.

Definition set_lastAction (a : Action) (R : Reflux) : Reflux :=
  {| lastAction := Some a; state := state R; stateStream := stateStream R;
     subscriptions := subscriptions R;
     actionIdentities := actionIdentities R; heap := heap R |}.

Definition set_state (s : value) (h : nat) (R : Reflux) : Reflux :=
  {| lastAction := lastAction R; state := s; stateStream := stateStream R;
     subscriptions := subscriptions R;
     actionIdentities := actionIdentities R; heap := h |}.

Definition set_stateStream (st : StateStream) (R : Reflux) : Reflux :=
  {| lastAction := lastAction R; state := state R; stateStream := st;
     subscriptions := subscriptions R;
     actionIdentities := actionIdentities R; heap := heap R |}.

Definition set_subscriptions (m : gmap string (list ActionObserver))
  (R : Reflux) : Reflux :=
  {| lastAction := lastAction R; state := state R;
     stateStream := stateStream R; subscriptions := m;
     actionIdentities := actionIdentities R; heap := heap R |}.

Definition set_actionIdentities (l : list nat) (R : Reflux) : Reflux :=
  {| lastAction := lastAction R; state := state R;
     stateStream := stateStream R; subscriptions := subscriptions R;
     actionIdentities := l; heap := heap R |}.

(** ** Action.identity (lines 177-184) *)

(** [Array.prototype.indexOf]: the first index of [x], or [-1]. *)
Fixpoint indexOf (l : list nat) (x : nat) : Z :=
  match l with
  | [] => (-1)%Z
  | y :: l' =>
      if Nat.eqb y x then 0%Z
      else let i := indexOf l' x in
           if (i <? 0)%Z then (-1)%Z else (i + 1)%Z
  end.

(** [get identity()]: the value returned and the namespace afterwards. *)
Definition identity (this : Action) (R : Reflux) : string * Reflux :=
  let id := indexOf (actionIdentities R) (constructor this) in
  if (id <? 0)%Z then
    let R' := set_actionIdentities
                (actionIdentities R ++ [constructor this]) R in
    let id := indexOf (actionIdentities R') (constructor this) in
    ("c" +:+ pretty id, R')%string
  else ("c" +:+ pretty id, R)%string.

(** ** Action.subscribe (lines 193-199) *)

Definition subscribe (this : Action) (actionObserver : ActionObserver)
  (R : Reflux) : Reflux :=
  let '(key, R) := identity this R in
  let R := match subscriptions R !! key with
           | None => set_subscriptions (<[key := []]> (subscriptions R)) R
           | Some _ => R
           end in
  set_subscriptions
    (<[key := default [] (subscriptions R !! key) ++ [actionObserver]]>
       (subscriptions R)) R.

(** ** Action.dispatch (lines 207-265) *)

(** The promise returned by [dispatch]. *)
Inductive promise : Type :=
| Pending
| Resolved
| Rejected (e : failure).

(** One dispatch in flight: the subscribed operator chain of lines 215-264.
    - [key]: [this.identity], under which the closure reads
      [subscriptions.length];
    - [active], [hasCompleted]: the counters of [flatMap];
    - [inner]: per inner subscription (they are made in handler order), the
      notifications its observable has still to send;
    - [index], [skipping]: the fields of [skipWhile];
    - [closed]: the chain has been unsubscribed;
    - [completion]: the state of the returned promise;
    - [calls]: a trace of the first argument of each handler invocation. *)
Record Dispatch := {
  key : string;
  active : nat;
  hasCompleted : bool;
  inner : list (list notification);
  index : nat;
  skipping : bool;
  closed : bool;
  completion : promise;
  calls : list value
}.

Definition Dispatch_create (k : string) : Dispatch :=
  {| key := k; active := 0; hasCompleted := false; inner := [];
     index := 0; skipping := true; closed := false;
     completion := Pending; calls := [] |}.

Definition set_active (n : nat) (D : Dispatch) : Dispatch :=
  {| key := key D; active := n; hasCompleted := hasCompleted D;
     inner := inner D; index := index D; skipping := skipping D;
     closed := closed D; completion := completion D; calls := calls D |}.

Definition set_hasCompleted (b : bool) (D : Dispatch) : Dispatch :=
  {| key := key D; active := active D; hasCompleted := b;
     inner := inner D; index := index D; skipping := skipping D;
     closed := closed D; completion := completion D; calls := calls D |}.

Definition set_inner (l : list (list notification)) (D : Dispatch)
  : Dispatch :=
  {| key := key D; active := active D; hasCompleted := hasCompleted D;
     inner := l; index := index D; skipping := skipping D;
     closed := closed D; completion := completion D; calls := calls D |}.

Definition set_skip (i : nat) (b : bool) (D : Dispatch) : Dispatch :=
  {| key := key D; active := active D; hasCompleted := hasCompleted D;
     inner := inner D; index := i; skipping := b;
     closed := closed D; completion := completion D; calls := calls D |}.

Definition set_completion (p : promise) (D : Dispatch) : Dispatch :=
  {| key := key D; active := active D; hasCompleted := hasCompleted D;
     inner := inner D; index := index D; skipping := skipping D;
     closed := closed D; completion := p; calls := calls D |}.

Definition add_call (s : value) (D : Dispatch) : Dispatch :=
  {| key := key D; active := active D; hasCompleted := hasCompleted D;
     inner := inner D; index := index D; skipping := skipping D;
     closed := closed D; completion := completion D;
     calls := calls D ++ [s] |}.

(** Unsubscribing the chain: the inner subscriptions are released and
    nothing flows through the chain any more. *)
Definition unsubscribe (D : Dispatch) : Dispatch :=
  {| key := key D; active := active D; hasCompleted := hasCompleted D;
     inner := []; index := index D; skipping := skipping D;
     closed := true; completion := completion D; calls := calls D |}.

(** [resolve] and [reject] of the promise executor (line 259): a promise
    settles once. *)
Definition resolve (D : Dispatch) : Dispatch :=
  match completion D with
  | Pending => set_completion Resolved D
  | _ => D
  end.

Definition reject (e : failure) (D : Dispatch) : Dispatch :=
  match completion D with
  | Pending => set_completion (Rejected e) D
  | _ => D
  end.

Section Dispatch.

(** [Reflux.state.merge(state, { deep: true })] of the immutable-state
    library: from the next free location, the receiver and the argument to
    the merged value and the next free location; [None] when the call
    throws. *)
Variable merge : nat -> value -> value -> option (value * nat).

(** The final subscriber, [observable.subscribe(() => {}, reject, resolve)]
    (lines 261-263). *)
Definition subscriber_next (x : value) (D : Dispatch) : Dispatch := D.
Definition subscriber_error (e : failure) (D : Dispatch) : Dispatch :=
  reject e (unsubscribe D).
Definition subscriber_complete (D : Dispatch) : Dispatch :=
  resolve (unsubscribe D).

(** [.catch((error) => Observable.empty())] (line 254): an error from
    upstream is replaced by the empty observable, which completes at
    once. *)
Definition catch_error (e : failure) (D : Dispatch) : Dispatch :=
  subscriber_complete D.

(** The second [.map] (lines 246-251). *)
Definition publish (x : value) (R : Reflux) : Reflux :=
  if negb (is_undefined x)
  then set_stateStream (StateStream_next (state R) (stateStream R)) R
  else R.

(** [.skipWhile((state, i) => i + 1 < subscriptions.length)] (line 243):
    whether the value passes, and the operator afterwards. *)
Definition skipWhile (R : Reflux) (D : Dispatch) : bool * Dispatch :=
  if skipping D then
    let subscriptions_length :=
      length (default [] (subscriptions R !! key D)) in
    let skip := index D + 1 <? subscriptions_length in
    (negb skip, set_skip (index D + 1) skip D)
  else (true, D).

(** The first [.map] (lines 227-240): merge or replace the state.  The
    result is the value passed downstream, or the error thrown. *)
Definition merge_or_replace (x : emitted) (R : Reflux)
  : failure + value * Reflux :=
  match x with
  | ReplaceableState nextState =>
      if is_undefined nextState then inr (VUndefined, R)
      else inr (nextState, set_state nextState (heap R) R)
  | Plain st =>
      if negb (is_undefined st) then
        match merge (heap R) (state R) st with
        | Some (merged, h) => inr (st, set_state merged h R)
        | None => inl TypeError
        end
      else inr (st, R)
  end.

(** An error reaches the chain below [flatMap]. *)
Definition on_error (e : failure) (s : Reflux * Dispatch)
  : Reflux * Dispatch :=
  (fst s, catch_error e (snd s)).

(** [flatMap] completes: the completion reaches the final subscriber. *)
Definition on_complete (s : Reflux * Dispatch) : Reflux * Dispatch :=
  (fst s, subscriber_complete (snd s)).

(** A value emitted by an inner observable goes through [map],
    [skipWhile], [map] and reaches the final subscriber. *)
Definition on_next (x : emitted) (s : Reflux * Dispatch)
  : Reflux * Dispatch :=
  match merge_or_replace x (fst s) with
  | inl e => on_error e s
  | inr (v, R) =>
      let '(pass, D) := skipWhile R (snd s) in
      if pass then (publish v R, subscriber_next v D) else (R, D)
  end.

(** An inner observable completes ([flatMap]). *)
Definition inner_complete (s : Reflux * Dispatch) : Reflux * Dispatch :=
  let D := set_active (active (snd s) - 1) (snd s) in
  if (active D =? 0) && hasCompleted D then on_complete (fst s, D)
  else (fst s, D).

(** One notification of an inner observable. *)
Definition notify (n : notification) (s : Reflux * Dispatch)
  : Reflux * Dispatch :=
  match n with
  | Next x => on_next x s
  | Error e => on_error e s
  | Complete => inner_complete s
  end.

Definition terminal (n : notification) : bool :=
  match n with
  | Next _ => false
  | _ => true
  end.

(** The notifications an inner observable sends while it is being
    subscribed; the boolean tells whether the inner subscription has
    ended. *)
Fixpoint feed (ns : list notification) (s : Reflux * Dispatch)
  : Reflux * Dispatch * bool :=
  match ns with
  | [] => (s, closed (snd s))
  | n :: ns' =>
      if closed (snd s) then (s, true)
      else if terminal n then (notify n s, true)
      else feed ns' (notify n s)
  end.

(** [Observable.from(subscriptions)] hands one handler to [flatMap]
    (lines 218-224): the handler is called with [Reflux.state] and its
    observable is subscribed. *)
Definition flatMap_next (this : Action) (actionObserver : ActionObserver)
  (s : Reflux * Dispatch) : Reflux * Dispatch :=
  if closed (snd s) then s
  else
    let R := fst s in
    let D := add_call (state R) (snd s) in
    match actionObserver (state R) this with
    | Throws e => on_error e (R, D)
    | NotObservable _ => on_error StoreMustReturnObservable (R, D)
    | Returns o =>
        let '(R', D', ended) :=
          feed (sync o) (R, set_active (active D + 1) D) in
        (R', set_inner (inner D' ++ [if ended then [] else later o]) D')
    end.

(** [Observable.from(subscriptions)] completes. *)
Definition flatMap_complete (s : Reflux * Dispatch) : Reflux * Dispatch :=
  if closed (snd s) then s
  else
    let D := set_hasCompleted true (snd s) in
    if active D =? 0 then on_complete (fst s, D) else (fst s, D).

(** [dispatch()]: everything that happens before it returns its promise. *)
Definition dispatch (this : Action) (R : Reflux) : Reflux * Dispatch :=
  let R := set_lastAction this R in
  let '(k, R) := identity this R in
  match subscriptions R !! k with
  | None => (R, subscriber_complete (Dispatch_create k))
  | Some subs =>
      if length subs =? 0
      then (R, subscriber_complete (Dispatch_create k))
      else
        flatMap_complete
          (fold_left (fun s h => flatMap_next this h s) subs
             (R, Dispatch_create k))
  end.

(** Later on, the observable of handler [i] sends its next notification. *)
Definition deliver (i : nat) (s : Reflux * Dispatch) : Reflux * Dispatch :=
  if closed (snd s) then s
  else
    match inner (snd s) !! i with
    | Some (n :: rest) =>
        notify n
          (fst s,
           set_inner (<[i := if terminal n then [] else rest]>
                        (inner (snd s))) (snd s))
    | _ => s
    end.

(** The notifications arrive in the order of the schedule. *)
Definition run (schedule : list nat) (s : Reflux * Dispatch)
  : Reflux * Dispatch :=
  fold_left (fun s i => deliver i s) schedule s.

End Dispatch.

(** ** The deep merge of the immutable-state library *)

Definition isMergeable (v : value) : bool :=
  match v with
  | VObj _ _ => true
  | _ => false
  end.

(** Modelled from the spec: the deep merge that [Reflux.state.merge(state,
    { deep: true })] calls belongs to the seamless-immutable package, whose
    code is not among the sources.  The spec says: nested mapping keys merge
    recursively; non-mapping leaf values are replaced by the incoming value.
    The library builds the result from a copy of the receiver, made when the
    first key changes, one key of the argument at a time; [rec] is the merge
    of the receiver's value with the incoming one.  A key whose value stays
    identical is not written. *)
Definition addToResult (rec : nat -> value -> value * nat)
  (currentObj : list (string * value)) (key : string)
  (immutableValue : value) (result : option (list (string * value)))
  (h : nat) : option (list (string * value)) * nat :=
  let hasOwnProperty := bool_decide (is_Some (get key currentObj)) in
  let currentValue := default VUndefined (get key currentObj) in
  if bool_decide (is_Some result) || negb hasOwnProperty
     || negb (strict_eq immutableValue currentValue)
  then
    let '(newValue, h') :=
      if isMergeable currentValue && isMergeable immutableValue
      then rec h currentValue
      else (immutableValue, h) in
    if negb (strict_eq currentValue newValue) || negb hasOwnProperty
    then (Some (set key newValue (default currentObj result)), h')
    else (result, h')
  else (result, h).

(** Modelled from the spec: the loop of the library's merge over the keys of
    its argument (see [addToResult]); [rec v] merges into a value of the
    receiver the incoming value [v]. *)
Definition merge_keys (rec : value -> nat -> value -> value * nat)
  (currentObj : list (string * value))
  : list (string * value) -> option (list (string * value)) -> nat ->
    option (list (string * value)) * nat :=
  fix keys otherObj result h :=
    match otherObj with
    | [] => (result, h)
    | (key, v) :: otherObj' =>
        let '(result', h') :=
          addToResult (rec v) currentObj key v result h in
        keys otherObj' result' h'
    end.

(** Modelled from the spec: the merge of an object into an object.  When no
    key changes the receiver itself is returned, otherwise the result is a
    new object, at the next free location. *)
Fixpoint merge_objects (h : nat) (this other : value) {struct other}
  : value * nat :=
  match this, other with
  | VObj _ currentObj, VObj _ otherObj =>
      match merge_keys (fun v h cur => merge_objects h cur v)
              currentObj otherObj None h with
      | (None, h') => (this, h')
      | (Some fs, h') => (VObj h' fs, S h')
      end
  | _, _ => (other, h)
  end.

(** Modelled from the spec: [this.merge(other, { deep: true })].  Only the
    merge of a mapping into a mapping, which is what the spec describes, has
    a result here; on a primitive argument the library throws a
    TypeError. *)
Definition Immutable_merge (h : nat) (this other : value)
  : option (value * nat) :=
  match this, other with
  | VObj _ _, VObj _ _ => Some (merge_objects h this other)
  | _, _ => None
  end.


(** ** Fixtures used by the concrete scenarios *)

(** The selector [state => state[name]] for the name of a field: reading a
    property of [undefined] or [null] throws, and only an object has
    fields. *)
Definition property (name : string) : StateSelector :=
  fun s =>
    match s with
    | VUndefined | VNull => None
    | VObj _ fs => Some (default VUndefined (get name fs))
    | _ => Some VUndefined
    end.

(** The object literal [{ name: v }], allocated at [loc]. *)
Definition obj1 (loc : nat) (name : string) (v : value) : value :=
  VObj loc [(name, v)].

(** A handler whose observable sends [ns] while it is subscribed, as
    [Observable.create(observer => { observer.next(..); observer.complete() })]
    does. *)
Definition sync_handler (ns : list notification) : ActionObserver :=
  fun _ _ => Returns {| sync := ns; later := [] |}.

(** A handler whose observable sends [ns] later on. *)
Definition async_handler (ns : list notification) : ActionObserver :=
  fun _ _ => Returns {| sync := []; later := ns |}.

(** An instance of some action class. *)
Definition anAction : Action := {| constructor := 0; payload := VUndefined |}.

(** The engine at start-up with handlers registered, in this order, for the
    class of [anAction]. *)
Definition engine_with (hs : list ActionObserver) : Reflux :=
  fold_left (fun R h => subscribe anAction h R) hs Reflux_init.

(** The observer created by the [n]-th subscription to a stream. *)
Definition observer (n : nat) (st : StateStream) : option Subscriber :=
  observers st !! n.


(** The handler of the specification's end-to-end scenario: it delivers
    [{ count: state.count + 1 }], with [count] defaulting to 0. *)
Definition increment : ActionObserver :=
  fun s _ =>
    let count := match property "count" s with
                 | Some (VNum n) => n
                 | _ => 0%Z
                 end in
    Returns {| sync := [Next (Plain (obj1 9 "count" (VNum (count + 1))));
                        Complete];
               later := [] |}.

(** ** Change detection of a selector-scoped subscription *)


(** ** The life of the process *)

(** [Reflux.subscriptions[this.identity]], the handlers a dispatch of [this]
    runs. *)
Definition handlers (this : Action) (R : Reflux) : list ActionObserver :=
  default [] (subscriptions (snd (identity this R)) !! fst (identity this R)).

(** One use of the engine by its environment; [merge] is the library's
    merge. *)
Inductive step (merge : nat -> value -> value -> option (value * nat))
  : Reflux -> Reflux -> Prop :=
| step_identity this R :
    step merge R (snd (identity this R))
| step_subscribe this actionObserver R :
    step merge R (subscribe this actionObserver R)
| step_dispatch this R :
    step merge R (fst (dispatch merge this R))
| step_deliver i R D :
    step merge R (fst (deliver merge i (R, D)))
| step_select sel R :
    step merge R
      (set_stateStream (StateStream_select sel (stateStream R)) R).

(** The call of a handler sends a result while its observable is being
    subscribed. *)
Definition sends_sync_result (r : returned) : bool :=
  match r with
  | Returns o => negb (forallb terminal (sync o))
  | _ => false
  end.

(** ** The order of arrival *)

(** The notifications that reach the chain, in order, when the inner
    observables, which have still [pending] to send, send their notifications
    as the schedule tells. *)
Fixpoint arrivals (schedule : list nat) (pending : list (list notification))
  : list notification :=
  match schedule with
  | [] => []
  | i :: schedule' =>
      match pending !! i with
      | Some (n :: rest) =>
          n :: arrivals schedule'
                 (<[i := if terminal n then [] else rest]> pending)
      | _ => arrivals schedule' pending
      end
  end.





(** ** Invariants of a dispatch *)

(** The operator chain writes [state], [heap] and [stateStream] only. *)
Definition registry_kept (R R' : Reflux) : Prop :=
  actionIdentities R' = actionIdentities R /\
  subscriptions R' = subscriptions R /\
  lastAction R' = lastAction R.


(** ** bindData (lines 315-322) *)





(** What the namespace keeps true of its registry: every entry of
    [subscriptions] is keyed by the identity of a class that is in
    [actionIdentities], and holds at least one handler. *)
Definition registered (R : Reflux) : Prop :=
  forall k hs,
    subscriptions R !! k = Some hs ->
    hs <> [] /\
    exists i, (0 <= i < Z.of_nat (length (actionIdentities R)))%Z /\
              k = ("c" +:+ pretty i)%string.

(** The promise and the chain go together: the promise is resolved when the
    chain has been unsubscribed, and pending as long as it has not. *)
Definition settled (D : Dispatch) : Prop :=
  if closed D then completion D = Resolved else completion D = Pending.



(** The number of values among the notifications. *)
Definition values (ns : list notification) : nat :=
  length (filter (fun n => terminal n = false) ns).



(** [subscriptions.length], as the predicate of [skipWhile] reads it. *)
Definition awaited (s : Reflux * Dispatch) : nat :=
  length (default [] (subscriptions (fst s) !! key (snd s))).

(** ** BindAction and Store (lines 286-306 and 383-389) *)

(** [refluxActions[name]] on the object kept as metadata of a store class
    under [REFLUX_ACTION_KEY]: from the name of a method to the class of the
    action it handles, the keys in insertion order. *)
Fixpoint bound_action (name : string) (refluxActions : list (string * nat))
  : option nat :=
  match refluxActions with
  | [] => None
  | (k, cls) :: rest =>
      if String.eqb k name then Some cls else bound_action name rest
  end.

(** [refluxActions[name] = cls] *)
Fixpoint bind_action (name : string) (cls : nat)
  (refluxActions : list (string * nat)) : list (string * nat) :=
  match refluxActions with
  | [] => [(name, cls)]
  | (k, c) :: rest =>
      if String.eqb k name then (k, cls) :: rest
      else (k, c) :: bind_action name cls rest
  end.

(** The decorator [BindAction()] applied to the method [propertyKey] of a
    store class: [paramtypes] are the classes of the parameters of the method
    (the metadata [design:paramtypes]), [metadata] is what the class holds
    under [REFLUX_ACTION_KEY], if anything.  The result is the metadata
    afterwards, or [None] when the decorator throws. *)
Definition BindAction (paramtypes : list nat) (propertyKey : string)
  (metadata : option (list (string * nat))) : option (list (string * nat)) :=
  if length paramtypes <? 2 then None
  else
    match paramtypes !! 1 with
    | Some cls => Some (bind_action propertyKey cls (default [] metadata))
    | None => None
    end.

(** [new cls()]: an instance made without arguments. *)
Definition new (cls : nat) : Action :=
  {| constructor := cls; payload := VUndefined |}.

(** The constructor of [Store]: [metadata] is what the class of the store
    holds under [REFLUX_ACTION_KEY], [this name] is the method [this[name]]
    of the store. *)
Definition Store (metadata : option (list (string * nat)))
  (this : string -> ActionObserver) (R : Reflux) : Reflux :=
  match metadata with
  | None => R
  | Some refluxActions =>
      fold_left (fun R entry => subscribe (new (snd entry)) (this (fst entry)) R)
        refluxActions R
  end.

(** ** BindData (lines 335-375) *)

(** The metadata that [BindData] keeps for a component class under
    [REFLUX_DATA_BINDINGS_KEY].  A subscription is the one [bindData] made
    for the member [key] of the object [target]; its [subscriber] is the
    observer it has on the state stream. *)
Module DataBindings.

Record Subscription := {
  target : nat;
  key : string;
  subscriber : Subscriber
}.

Record t := {
  selectors : list (string * option StateSelector);
  subscriptions : list Subscription;
  destroyed : bool
}.

End DataBindings.

(** A component class as the stream and the decorator see it: its metadata,
    if it has any, and a trace of the invocations of the consumers of its
    subscriptions (the object, the member and the data).  The observers of
    these subscriptions are kept here, in [DataBindings.subscriptions]: they
    are the part of the stream's observers that belongs to the component, and
    unsubscribing removes them. *)
Record Component := {
  dataBindings : option DataBindings.t;
  invoked : list (nat * string * value)
}.

(** [selectors[propertyKey] = selector] *)
Fixpoint set_selector (propertyKey : string) (sel : option StateSelector)
  (selectors : list (string * option StateSelector))
  : list (string * option StateSelector) :=
  match selectors with
  | [] => [(propertyKey, sel)]
  | (k, x) :: rest =>
      if String.eqb k propertyKey then (k, sel) :: rest
      else (k, x) :: set_selector propertyKey sel rest
  end.

(** The observer of a subscription is handed a state: the subscription
    afterwards, and the invocations of its consumer that this causes. *)
Definition Subscription_next (state : value) (b : DataBindings.Subscription)
  : DataBindings.Subscription * list (nat * string * value) :=
  let s := Subscriber_next state (DataBindings.subscriber b) in
  ({| DataBindings.target := DataBindings.target b;
      DataBindings.key := DataBindings.key b;
      DataBindings.subscriber := s |},
   map (fun data => (DataBindings.target b, DataBindings.key b, data))
     (drop (length (received (DataBindings.subscriber b))) (received s))).

(** [bindData(target, key, selector)] (lines 315-322) seen from the
    component: the subscription it returns, which has been handed the current
    value of the stream, and the invocations of the consumer so far. *)
Definition bindData_subscription (current : value) (target : nat)
  (key : string) (sel : option StateSelector)
  : DataBindings.Subscription * list (nat * string * value) :=
  Subscription_next current
    {| DataBindings.target := target;
       DataBindings.key := key;
       DataBindings.subscriber := Subscriber_create sel |}.

(** The decorator [BindData(selector)] applied to the member [propertyKey]
    of the class whose prototype is [target] (lines 336-374); [current] is
    the current value of the state stream. *)
Definition BindData (sel : option StateSelector) (target : nat)
  (propertyKey : string) (current : value) (c : Component) : Component :=
  let bindingsMeta :=
    default {| DataBindings.selectors := [];
               DataBindings.subscriptions := [];
               DataBindings.destroyed := false |} (dataBindings c) in
  let bound := bindData_subscription current target propertyKey sel in
  {| dataBindings :=
       Some {| DataBindings.selectors :=
                 set_selector propertyKey sel
                   (DataBindings.selectors bindingsMeta);
               DataBindings.subscriptions :=
                 DataBindings.subscriptions bindingsMeta ++ [fst bound];
               DataBindings.destroyed :=
                 DataBindings.destroyed bindingsMeta |};
     invoked := invoked c ++ snd bound |}.

(** The patched [ngOnInit] (lines 343-356), called on the instance [this]. *)
Definition ngOnInit (this : nat) (current : value) (c : Component)
  : Component :=
  match dataBindings c with
  | Some d =>
      if DataBindings.destroyed d then
        let bound :=
          map (fun entry =>
                 bindData_subscription current this (fst entry) (snd entry))
            (DataBindings.selectors d) in
        {| dataBindings :=
             Some {| DataBindings.selectors := DataBindings.selectors d;
                     DataBindings.subscriptions :=
                       DataBindings.subscriptions d ++ map fst bound;
                     DataBindings.destroyed := false |};
           invoked := invoked c ++ concat (map snd bound) |}
      else c
  | None => c
  end.

(** The patched [ngOnDestroy] (lines 359-368). *)
Definition ngOnDestroy (c : Component) : Component :=
  match dataBindings c with
  | Some d =>
      {| dataBindings :=
           Some {| DataBindings.selectors := DataBindings.selectors d;
                   DataBindings.subscriptions := [];
                   DataBindings.destroyed := true |};
         invoked := invoked c |}
  | None => c
  end.

(** [stateStream.next(state)], as the component sees it: the state is handed
    to the observers of its subscriptions, in their order. *)
Definition Component_next (state : value) (c : Component) : Component :=
  match dataBindings c with
  | Some d =>
      let handed := map (Subscription_next state)
                      (DataBindings.subscriptions d) in
      {| dataBindings :=
           Some {| DataBindings.selectors := DataBindings.selectors d;
                   DataBindings.subscriptions := map fst handed;
                   DataBindings.destroyed := DataBindings.destroyed d |};
         invoked := invoked c ++ concat (map snd handed) |}
  | None => c
  end.

(** What happens to a component and to the stream it listens to. *)
Inductive lifecycle : Type :=
| Decorate (sel : option StateSelector) (propertyKey : string)
| OnInit (this : nat)
| OnDestroy
| Publish (state : value).

(** One event: the current value of the stream and the component
    afterwards.  The prototype of the class is the object 0. *)
Definition live (e : lifecycle) (s : value * Component) : value * Component :=
  match e with
  | Decorate sel propertyKey =>
      (fst s, BindData sel 0 propertyKey (fst s) (snd s))
  | OnInit this => (fst s, ngOnInit this (fst s) (snd s))
  | OnDestroy => (fst s, ngOnDestroy (snd s))
  | Publish state => (state, Component_next state (snd s))
  end.

(** A component class before any decorator has run. *)
Definition undecorated : Component :=
  {| dataBindings := None; invoked := [] |}.

(** The subscriptions the component holds. *)
Definition held (c : Component) : list DataBindings.Subscription :=
  match dataBindings c with
  | Some d => DataBindings.subscriptions d
  | None => []
  end.

(** The members the component binds, in the order of their first binding. *)
Definition bound_members (c : Component) : list string :=
  match dataBindings c with
  | Some d => map fst (DataBindings.selectors d)
  | None => []
  end.

(** [dataBindings.destroyed === true] *)
Definition is_destroyed (c : Component) : bool :=
  match dataBindings c with
  | Some d => DataBindings.destroyed d
  | None => false
  end.

(** An event that is not a decoration. *)
Definition after_decoration (e : lifecycle) : bool :=
  match e with
  | Decorate _ _ => false
  | _ => true
  end.

(** The events happen one after the other. *)
Definition lifetime (events : list lifecycle) (s : value * Component)
  : value * Component :=
  fold_left (fun s e => live e s) events s.

(** No subscription is held without need: a destroyed component holds none,
    a component that is not destroyed holds one for each member it binds. *)
Definition balanced (c : Component) : Prop :=
  length (held c) =
  if is_destroyed c then 0 else length (bound_members c).

(** ** ListWithApiComponent (the list component that loads its items by
    chunks) *)

Section ListWithApi.

(** The type of the items, declared in another file. *)
Variable ListItem : Type.

(** What follows a fetch: [reset] puts the chunk in place of the buffer,
    [onListChange] appends it and clears [loading]. *)
Inductive continuation : Type :=
| Replace
| Append.

(** The component.  [timer] is the timeout that [fetchNextChunk] has armed,
    if it has not fired: the arguments of the fetch and what follows it.
    [indices] is the last [ChangeEvent], its [start] and its [end]. *)
Record ListWithApiComponent := {
  items : list ListItem;
  indices : option (nat * nat);
  buffer : list ListItem;
  loading : bool;
  timer : option (nat * nat * continuation)
}.

Definition bufferSize : nat := 10.

(** [fetchNextChunk(skip, limit)]: the pending timeout is cleared, so that
    the promise of an earlier fetch never settles, and a new one is armed. *)
Definition fetchNextChunk (skip limit : nat) (k : continuation)
  (c : ListWithApiComponent) : ListWithApiComponent :=
  {| items := items c; indices := indices c; buffer := buffer c;
     loading := loading c; timer := Some (skip, limit, k) |}.

(** [reset()], which is all that [ngOnChanges] does. *)
Definition reset (c : ListWithApiComponent) : ListWithApiComponent :=
  fetchNextChunk 0 bufferSize Replace c.

(** [onListChange(event)] *)
Definition onListChange (event : nat * nat) (c : ListWithApiComponent)
  : ListWithApiComponent :=
  let c := {| items := items c; indices := Some event; buffer := buffer c;
              loading := loading c; timer := timer c |} in
  if snd event =? length (buffer c) then
    fetchNextChunk (length (buffer c)) bufferSize Append
      {| items := items c; indices := indices c; buffer := buffer c;
         loading := true; timer := timer c |}
  else c.

(** The timeout fires: the promise of the fetch is resolved with
    [items.slice(skip, skip + limit)] when [skip < items.length] and rejected
    otherwise, and its callbacks run. *)
Definition timeout (c : ListWithApiComponent) : ListWithApiComponent :=
  match timer c with
  | None => c
  | Some (skip, limit, k) =>
      if skip <? length (items c) then
        let chunk := take limit (drop skip (items c)) in
        match k with
        | Replace =>
            {| items := items c; indices := indices c; buffer := chunk;
               loading := loading c; timer := None |}
        | Append =>
            {| items := items c; indices := indices c;
               buffer := buffer c ++ chunk;
               loading := false; timer := None |}
        end
      else
        match k with
        | Replace =>
            {| items := items c; indices := indices c; buffer := buffer c;
               loading := loading c; timer := None |}
        | Append =>
            {| items := items c; indices := indices c; buffer := buffer c;
               loading := false; timer := None |}
        end
  end.

(** What happens to the component while its input stays the same. *)
Inductive happening : Type :=
| NgOnChanges
| ListChange (event : nat * nat)
| Timeout.

Definition happen (e : happening) (c : ListWithApiComponent)
  : ListWithApiComponent :=
  match e with
  | NgOnChanges => reset c
  | ListChange event => onListChange event c
  | Timeout => timeout c
  end.

(** The component when it has been given its items and nothing has happened
    yet. *)
Definition created (l : list ListItem) : ListWithApiComponent :=
  {| items := l; indices := None; buffer := []; loading := false;
     timer := None |}.

(** What the component keeps true: the buffer is the beginning of the items,
    and a pending fetch starts at the first item when its chunk is to be put
    in place of the buffer, and where the buffer ends when its chunk is to be
    appended. *)
Definition in_order (c : ListWithApiComponent) : Prop :=
  buffer c `prefix_of` items c /\
  forall skip limit k,
    timer c = Some (skip, limit, k) ->
    skip = match k with
           | Replace => 0
           | Append => length (buffer c)
           end.

(** The user scrolls to the end of what is shown, and the chunk arrives. *)
Definition load_more (c : ListWithApiComponent) : ListWithApiComponent :=
  timeout (onListChange (0, length (buffer c)) c).

End ListWithApi.

Arguments items {ListItem}.
Arguments indices {ListItem}.
Arguments buffer {ListItem}.
Arguments loading {ListItem}.
Arguments timer {ListItem}.
Arguments fetchNextChunk {ListItem}.
Arguments reset {ListItem}.
Arguments onListChange {ListItem}.
Arguments timeout {ListItem}.
Arguments happen {ListItem}.
Arguments created {ListItem}.
Arguments in_order {ListItem}.
Arguments load_more {ListItem}.

(** * Properties *)

(** ** StateStream.select *)










(** ** Action.identity *)

Lemma indexOf_ge l x : (-1 <= indexOf l x)%Z.
Proof.
  induction l as [|y l IH]; simpl; [lia|].
  destruct (Nat.eqb y x); [lia|]. destruct (Z.ltb_spec (indexOf l x) 0); lia.
Qed.

Lemma indexOf_app_found l l' x :
  (0 <= indexOf l x)%Z -> indexOf (l ++ l') x = indexOf l x.
Proof.
  induction l as [|y l IH]; simpl; [lia|].
  destruct (Nat.eqb y x); [done|].
  destruct (Z.ltb_spec (indexOf l x) 0) as [Hlt|Hge]; [lia|].
  intros _. rewrite IH by done.
  destruct (Z.ltb_spec (indexOf l x) 0); [lia|done].
Qed.

Lemma indexOf_push l x : (0 <= indexOf (l ++ [x]) x)%Z.
Proof.
  induction l as [|y l IH]; simpl.
  - rewrite Nat.eqb_refl. lia.
  - destruct (Nat.eqb y x); [lia|].
    destruct (Z.ltb_spec (indexOf (l ++ [x]) x) 0); lia.
Qed.

Lemma indexOf_prefix l l' x :
  l `prefix_of` l' -> (0 <= indexOf l x)%Z -> indexOf l' x = indexOf l x.
Proof. intros [k ->] H. by apply indexOf_app_found. Qed.

(** What the getter returns and what it does to the namespace. *)
Lemma identity_spec this R :
  let id := indexOf (actionIdentities (snd (identity this R)))
              (constructor this) in
  fst (identity this R) = ("c" +:+ pretty id)%string /\
  (0 <= id)%Z /\
  actionIdentities R `prefix_of` actionIdentities (snd (identity this R)) /\
  subscriptions (snd (identity this R)) = subscriptions R /\
  state (snd (identity this R)) = state R /\
  heap (snd (identity this R)) = heap R /\
  stateStream (snd (identity this R)) = stateStream R.
Proof.
  unfold identity.
  destruct (Z.ltb_spec (indexOf (actionIdentities R) (constructor this)) 0);
    simpl.
  - repeat split; try done.
    + apply indexOf_push.
    + by apply prefix_app_r.
  - repeat split; done.
Qed.

(** Once a class is in the table, the getter leaves the table alone. *)
Lemma identity_known this R :
  (0 <= indexOf (actionIdentities R) (constructor this))%Z ->
  identity this R =
  (("c" +:+ pretty (indexOf (actionIdentities R) (constructor this)))%string,
   R).
Proof.
  intros H. unfold identity.
  destruct (Z.ltb_spec (indexOf (actionIdentities R) (constructor this)) 0);
    [lia|done].
Qed.

(** ** What a dispatch leaves alone *)

Lemma registry_kept_refl R : registry_kept R R.
Proof. by repeat split. Qed.

Lemma registry_kept_trans R1 R2 R3 :
  registry_kept R1 R2 -> registry_kept R2 R3 -> registry_kept R1 R3.
Proof. intros (?&?&?) (?&?&?). repeat split; congruence. Qed.

Section DispatchFrame.

Variable merge : nat -> value -> value -> option (value * nat).

Lemma merge_or_replace_kept x R v R' :
  merge_or_replace merge x R = inr (v, R') -> registry_kept R R'.
Proof.
  unfold merge_or_replace. intros H.
  destruct x as [st|st]; destruct (is_undefined st); simpl in H.
  - injection H as <- <-. apply registry_kept_refl.
  - destruct (merge _ _ _) as [[m h]|]; [|done].
    injection H as <- <-. by repeat split.
  - injection H as <- <-. apply registry_kept_refl.
  - injection H as <- <-. by repeat split.
Qed.

Lemma publish_kept v R : registry_kept R (publish v R).
Proof. unfold publish. destruct (negb _); by repeat split. Qed.

Lemma on_next_kept x s : registry_kept (fst s) (fst (on_next merge x s)).
Proof.
  unfold on_next.
  destruct (merge_or_replace merge x (fst s)) as [e|[v R]] eqn:E.
  - apply registry_kept_refl.
  - apply merge_or_replace_kept in E.
    destruct (skipWhile R (snd s)) as [pass D]. destruct pass; simpl.
    + eapply registry_kept_trans; [done|apply publish_kept].
    + done.
Qed.

Lemma inner_complete_fst s : fst (inner_complete s) = fst s.
Proof. unfold inner_complete. by destruct (_ && _). Qed.

Lemma notify_kept n s : registry_kept (fst s) (fst (notify merge n s)).
Proof.
  destruct n as [x|e|]; simpl.
  - apply on_next_kept.
  - apply registry_kept_refl.
  - rewrite inner_complete_fst. apply registry_kept_refl.
Qed.

Lemma feed_kept ns : forall s,
  registry_kept (fst s) (fst (fst (feed merge ns s))).
Proof.
  induction ns as [|n ns IH]; intros s; simpl.
  - apply registry_kept_refl.
  - destruct (closed (snd s)); [apply registry_kept_refl|].
    destruct (terminal n); simpl; [apply notify_kept|].
    eapply registry_kept_trans; [apply notify_kept|apply IH].
Qed.

Lemma flatMap_next_kept this h s :
  registry_kept (fst s) (fst (flatMap_next merge this h s)).
Proof.
  unfold flatMap_next. destruct (closed (snd s)); [apply registry_kept_refl|].
  destruct (h _ _) as [e|v|o]; try apply registry_kept_refl.
  pose proof (feed_kept (sync o)
                (fst s, set_active (active (add_call (state (fst s))
                   (snd s)) + 1) (add_call (state (fst s)) (snd s)))) as H.
  destruct (feed _ _ _) as [[R' D'] ended]. done.
Qed.

Lemma flatMap_fold_kept this hs : forall s,
  registry_kept (fst s)
    (fst (fold_left (fun s h => flatMap_next merge this h s) hs s)).
Proof.
  induction hs as [|h hs IH]; intros s; simpl.
  - apply registry_kept_refl.
  - eapply registry_kept_trans; [apply flatMap_next_kept|apply IH].
Qed.

Lemma flatMap_complete_fst s : fst (flatMap_complete s) = fst s.
Proof.
  unfold flatMap_complete. destruct (closed _); [done|].
  by destruct (_ =? _).
Qed.

Lemma deliver_kept i s : registry_kept (fst s) (fst (deliver merge i s)).
Proof.
  unfold deliver. destruct (closed _); [apply registry_kept_refl|].
  destruct (inner (snd s) !! i) as [[|n rest]|];
    try apply registry_kept_refl.
  apply (notify_kept n (fst s, _)).
Qed.

Lemma dispatch_table this R :
  actionIdentities (fst (dispatch merge this R)) =
  actionIdentities (snd (identity this R)).
Proof.
  unfold dispatch.
  replace (identity this (set_lastAction this R)) with
    (fst (identity this R), set_lastAction this (snd (identity this R))).
  2:{ unfold identity; simpl. by destruct (_ <? _)%Z. }
  destruct (subscriptions _ !! _) as [subs|]; [|done].
  destruct (length subs =? 0); [done|].
  rewrite flatMap_complete_fst.
  by destruct (flatMap_fold_kept this subs
                 (set_lastAction this (snd (identity this R)),
                  Dispatch_create (fst (identity this R)))) as (->&_).
Qed.

Lemma subscribe_table this h R :
  actionIdentities (subscribe this h R) =
  actionIdentities (snd (identity this R)).
Proof.
  unfold subscribe. destruct (identity this R) as [k R']; simpl.
  by destruct (subscriptions R' !! k).
Qed.

(** Every use of the engine extends the identity table at its end. *)
Lemma step_table R R' :
  step merge R R' -> actionIdentities R `prefix_of` actionIdentities R'.
Proof.
  intros [this R0|this h R0|this R0|i R0 D|sel R0].
  - apply identity_spec.
  - rewrite subscribe_table. apply identity_spec.
  - rewrite dispatch_table. apply identity_spec.
  - by destruct (deliver_kept i (R0, D)) as (->&_).
  - done.
Qed.

Lemma lifetime_table R R' :
  rtc (step merge) R R' ->
  actionIdentities R `prefix_of` actionIdentities R'.
Proof.
  induction 1 as [|R1 R2 R3 H _ IH]; [done|].
  etrans; [by apply step_table|done].
Qed.

End DispatchFrame.

(** C9.  Over the life of the process the identity table only grows, at its
    end: what it held stays where it was.  Hence, once an instance of a class
    has been given its identity, every instance of that class is given the
    same identity at any later time, and both instances resolve to the same
    handlers. *)
Theorem identity_stable merge :
  (forall R R',
     rtc (step merge) R R' ->
     actionIdentities R `prefix_of` actionIdentities R') /\
  (forall this other R R',
     constructor this = constructor other ->
     rtc (step merge) (snd (identity this R)) R' ->
     fst (identity other R') = fst (identity this R) /\
     handlers other R' = handlers this R').
Proof.
  split; [apply lifetime_table|].
  intros this other R R' Hc Hlife.
  apply lifetime_table in Hlife.
  destruct (identity_spec this R) as (Hk & Hid & _).
  pose proof (indexOf_prefix _ _ _ Hlife Hid) as Hsame.
  assert (forall a, constructor a = constructor this ->
            identity a R' = (fst (identity this R), R')) as Hany.
  { intros a Ha. rewrite identity_known; rewrite Ha, Hsame; [|done].
    by rewrite Hk. }
  unfold handlers. rewrite (Hany other), (Hany this); done.
Qed.

Lemma identity_stable_witness :
  let this := {| constructor := 3; payload := VNum 1 |} in
  let other := {| constructor := 3; payload := VNum 2 |} in
  let R1 := snd (identity this Reflux_init) in
  let R2 := subscribe anAction (sync_handler [Complete]) R1 in
  let R3 := fst (dispatch Immutable_merge anAction R2) in
  fst (identity other R3) = fst (identity this Reflux_init) /\
  handlers other R3 = handlers this R3.
Proof.
  intros this other R1 R2 R3.
  apply (proj2 (identity_stable Immutable_merge) this other Reflux_init R3).
  - reflexivity.
  - apply (rtc_l _ R1 R2 R3).
    + apply (step_subscribe Immutable_merge anAction (sync_handler [Complete])
               R1).
    + apply rtc_once. apply (step_dispatch Immutable_merge anAction R2).
Defined.

(** ** A chain that has been unsubscribed is inert *)

Section DispatchClosed.

Variable merge : nat -> value -> value -> option (value * nat).

Lemma deliver_closed i s : closed (snd s) = true -> deliver merge i s = s.
Proof. intros H. unfold deliver. by rewrite H. Qed.

Lemma run_closed schedule : forall s,
  closed (snd s) = true -> run merge schedule s = s.
Proof.
  induction schedule as [|i schedule IH]; intros s H; [done|].
  unfold run in *; simpl. rewrite deliver_closed by done. by apply IH.
Qed.




Lemma on_error_closed e s : closed (snd (on_error e s)) = true.
Proof.
  unfold on_error, catch_error, subscriber_complete, resolve; simpl.
  by destruct (completion (snd s)).
Qed.

Lemma on_error_fst e s : fst (on_error e s) = fst s.
Proof. done. Qed.













End DispatchClosed.







(** C10.  A [ReplaceableState] that wraps [undefined] goes through the chain
    as the plain value [undefined] does, and leaves the whole engine as it
    was: the state is not replaced and nothing is published. *)
Theorem replaceable_undefined_is_noop merge R D :
  on_next merge (ReplaceableState VUndefined) (R, D) =
  on_next merge (Plain VUndefined) (R, D) /\
  fst (on_next merge (ReplaceableState VUndefined) (R, D)) = R.
Proof.
  unfold on_next; simpl. split; [done|].
  destruct (skipWhile R D) as [pass D']. by destruct pass.
Qed.

(** ** The arguments of the handlers *)

Section DispatchCalls.

Variable merge : nat -> value -> value -> option (value * nat).

(** [dispatch], with the lookup of the handlers named. *)
Lemma dispatch_handlers this R :
  dispatch merge this R =
  let k := fst (identity this R) in
  let R' := set_lastAction this (snd (identity this R)) in
  if length (handlers this R) =? 0
  then (R', subscriber_complete (Dispatch_create k))
  else flatMap_complete
         (fold_left (fun s h => flatMap_next merge this h s)
            (handlers this R) (R', Dispatch_create k)).
Proof.
  unfold dispatch, handlers.
  replace (identity this (set_lastAction this R)) with
    (fst (identity this R), set_lastAction this (snd (identity this R))).
  2:{ unfold identity; simpl. by destruct (_ <? _)%Z. }
  simpl. by destruct (subscriptions _ !! _) as [subs|].
Qed.

Lemma subscriber_complete_calls D : calls (subscriber_complete D) = calls D.
Proof.
  unfold subscriber_complete, resolve; simpl. by destruct (completion D).
Qed.

Lemma on_next_calls x s : calls (snd (on_next merge x s)) = calls (snd s).
Proof.
  unfold on_next. destruct (merge_or_replace _ _ _) as [e|[v R]].
  - apply subscriber_complete_calls.
  - unfold skipWhile. destruct (skipping _); [|done]. by destruct (negb _).
Qed.

Lemma notify_calls n s : calls (snd (notify merge n s)) = calls (snd s).
Proof.
  destruct n as [x|e|].
  - apply on_next_calls.
  - apply subscriber_complete_calls.
  - unfold notify, inner_complete. destruct (_ && _); [|done].
    unfold on_complete; simpl. by rewrite subscriber_complete_calls.
Qed.

Lemma notify_terminal_fst n s :
  terminal n = true -> fst (notify merge n s) = fst s.
Proof.
  destruct n as [x|e|]; simpl; [done|done|]. intros _.
  apply inner_complete_fst.
Qed.

Lemma feed_calls ns : forall s,
  calls (snd (fst (feed merge ns s))) = calls (snd s).
Proof.
  induction ns as [|n ns IH]; intros s; simpl; [done|].
  destruct (closed _); [done|]. destruct (terminal n); simpl.
  - apply notify_calls.
  - rewrite IH. apply notify_calls.
Qed.

Lemma feed_terminal_fst ns : forall s,
  forallb terminal ns = true -> fst (fst (feed merge ns s)) = fst s.
Proof.
  destruct ns as [|n ns]; intros s H; simpl; [done|].
  simpl in H. apply andb_prop in H as [Hn _]. rewrite Hn.
  destruct (closed _); [done|]. simpl. by apply notify_terminal_fst.
Qed.

Lemma flatMap_next_snapshot this h s v :
  state (fst s) = v ->
  Forall (fun a => a = v) (calls (snd s)) ->
  sends_sync_result (h v this) = false ->
  state (fst (flatMap_next merge this h s)) = v /\
  Forall (fun a => a = v) (calls (snd (flatMap_next merge this h s))).
Proof.
  intros Hv Hcalls Hh. unfold flatMap_next.
  destruct (closed (snd s)); [done|]. rewrite Hv.
  assert (Forall (fun a => a = v) (calls (add_call v (snd s)))) as Hadd.
  { simpl. apply Forall_app. split; [done|]. by constructor. }
  destruct (h v this) as [e|x|o].
  - split; [done|]. unfold on_error, catch_error; simpl.
    by rewrite subscriber_complete_calls.
  - split; [done|]. unfold on_error, catch_error; simpl.
    by rewrite subscriber_complete_calls.
  - simpl in Hh. apply negb_false_iff in Hh.
    pose proof (feed_terminal_fst (sync o)
                  (fst s, set_active (active (add_call v (snd s)) + 1)
                            (add_call v (snd s))) Hh) as Hfst.
    pose proof (feed_calls (sync o)
                  (fst s, set_active (active (add_call v (snd s)) + 1)
                            (add_call v (snd s)))) as Hc.
    destruct (feed _ _ _) as [[R' D'] ended]. simpl in *.
    subst R'. rewrite Hc. done.
Qed.

Lemma flatMap_fold_snapshot this v hs : forall s,
  state (fst s) = v ->
  Forall (fun a => a = v) (calls (snd s)) ->
  Forall (fun h => sends_sync_result (h v this) = false) hs ->
  let s' := fold_left (fun s h => flatMap_next merge this h s) hs s in
  state (fst s') = v /\ Forall (fun a => a = v) (calls (snd s')).
Proof.
  induction hs as [|h hs IH]; intros s Hv Hcalls Hhs; simpl; [done|].
  inversion Hhs as [|? ? Hh Hrest]; subst.
  destruct (flatMap_next_snapshot this h s _ eq_refl Hcalls Hh) as [H1 H2].
  by apply IH.
Qed.

Lemma flatMap_complete_calls s :
  calls (snd (flatMap_complete s)) = calls (snd s).
Proof.
  unfold flatMap_complete. destruct (closed _); [done|].
  destruct (_ =? _); [|done].
  unfold on_complete; simpl. by rewrite subscriber_complete_calls.
Qed.

End DispatchCalls.

Lemma flatMap_next_calls merge this h R D :
  closed D = false ->
  calls (snd (flatMap_next merge this h (R, D))) = calls D ++ [state R].
Proof.
  intros Hlive. unfold flatMap_next; simpl. rewrite Hlive.
  destruct (h (state R) this) as [e|x|o].
  - unfold on_error, catch_error; simpl. by rewrite subscriber_complete_calls.
  - unfold on_error, catch_error; simpl. by rewrite subscriber_complete_calls.
  - pose proof (feed_calls merge (sync o)
                  (R, set_active (active (add_call (state R) D) + 1)
                        (add_call (state R) D))) as Hc.
    destruct (feed _ _ _) as [[R' D'] ended]. simpl in *. done.
Qed.

(** C5 (as amended).  A handler is called with the engine's state as it is
    when the handler is called.  When no handler of the dispatch sends a
    result while its observable is being subscribed, every handler that is
    called receives the pre-dispatch state, which is still the engine's state
    when [dispatch] returns. *)
Theorem handlers_share_snapshot merge this R :
  (forall h D,
     closed D = false ->
     calls (snd (flatMap_next merge this h (R, D))) = calls D ++ [state R]) /\
  (Forall (fun h => sends_sync_result (h (state R) this) = false)
     (handlers this R) ->
   Forall (fun a => a = state R) (calls (snd (dispatch merge this R))) /\
   state (fst (dispatch merge this R)) = state R).
Proof.
  split; [intros h D; apply flatMap_next_calls|].
  intros Hhs. rewrite dispatch_handlers. cbv zeta.
  assert (state (set_lastAction this (snd (identity this R))) = state R)
    as Hstate by (simpl; apply identity_spec).
  destruct (length (handlers this R) =? 0).
  - split; [|done].
    cbn [snd]. rewrite subscriber_complete_calls. constructor.
  - rewrite flatMap_complete_calls, flatMap_complete_fst.
    destruct (flatMap_fold_snapshot merge this (state R) (handlers this R)
                (set_lastAction this (snd (identity this R)),
                 Dispatch_create (fst (identity this R))))
      as [H1 H2]; try done.
Qed.

Lemma handlers_share_snapshot_witness :
  let R := engine_with
             [async_handler [Next (Plain (obj1 5 "a" (VNum 1))); Complete];
              async_handler [Next (Plain (obj1 6 "b" (VNum 2))); Complete]] in
  Forall (fun a => a = state R)
    (calls (snd (dispatch Immutable_merge anAction R))).
Proof.
  intros R.
  apply (proj2 (handlers_share_snapshot Immutable_merge anAction R)).
  vm_compute. repeat constructor.
Defined.

(** C5 (as stated) fails: the observable of the first handler sends its
    result while it is subscribed, as [Observable.create(observer => {
    observer.next(..); observer.complete() })] does; the second handler is
    then called with the merged state. *)
Lemma shared_snapshot_counterexample :
  let R := engine_with
             [sync_handler [Next (Plain (obj1 5 "a" (VNum 1))); Complete];
              sync_handler [Complete]] in
  state R = VObj 0 [] /\
  calls (snd (dispatch Immutable_merge anAction R)) =
  [VObj 0 []; VObj 1 [("a"%string, VNum 1)]] /\
  ~ Forall (fun a => a = state R)
      (calls (snd (dispatch Immutable_merge anAction R))).
Proof.
  vm_compute. repeat split.
  intros H. inversion H as [|? ? _ H']. inversion H' as [|? ? Hne _].
  discriminate Hne.
Qed.

(** C4: the code at the failing input.  Two handlers, no failure: the first
    delivers [{a: 1}], the second delivers [undefined].  The merged state is
    committed, the promise is resolved, and nothing has been published: the
    stream still holds the start-up state.  With the two handlers registered
    the other way round, the same results are published. *)
Lemma commit_without_publish :
  let h1 := sync_handler [Next (Plain (obj1 5 "a" (VNum 1))); Complete] in
  let h2 := sync_handler [Next (Plain VUndefined); Complete] in
  let s := dispatch Immutable_merge anAction (engine_with [h1; h2]) in
  let s' := dispatch Immutable_merge anAction (engine_with [h2; h1]) in
  completion (snd s) = Resolved /\
  state (fst s) = VObj 1 [("a"%string, VNum 1)] /\
  published (stateStream (fst s)) = [] /\
  current (stateStream (fst s)) = VObj 0 [] /\
  completion (snd s') = Resolved /\
  state (fst s') = VObj 1 [("a"%string, VNum 1)] /\
  published (stateStream (fst s')) = [VObj 1 [("a"%string, VNum 1)]].
Proof. vm_compute. repeat split. Qed.

(** ** Results are merged as they arrive *)





Section DispatchArrivals.

Variable merge : nat -> value -> value -> option (value * nat).







End DispatchArrivals.

Section DispatchCounted.

Variable merge : nat -> value -> value -> option (value * nat).

Lemma subscriber_complete_inner D :
  inner (subscriber_complete D) = [] /\ closed (subscriber_complete D) = true.
Proof.
  unfold subscriber_complete, resolve; simpl. by destruct (completion D).
Qed.











End DispatchCounted.




(** ** Merge and replace *)










(** ** The end-to-end scenario of the specification *)

(** One handler that increments [count], a consumer that selects [count],
    three dispatches one after the other: the state ends as [{count: 3}] and
    the consumer has been notified of 1, 2 and 3, in this order. *)
Example three_increments :
  let R0 := engine_with [increment] in
  let R1 := set_stateStream
              (StateStream_select (Some (property "count")) (stateStream R0))
              R0 in
  let once R := fst (dispatch Immutable_merge anAction R) in
  let R4 := once (once (once R1)) in
  state R4 = VObj 3 [("count"%string, VNum 3)] /\
  received <$> observer 0 (stateStream R4) = Some [VNum 1; VNum 2; VNum 3] /\
  length (published (stateStream R4)) = 3.
Proof. vm_compute. repeat split. Qed.

(** * Further properties of the code *)

(** ** StateStream.select and bindData *)
















(** ** Action.identity and Action.subscribe *)

Lemma indexOf_lookup l x :
  (0 <= indexOf l x)%Z -> l !! Z.to_nat (indexOf l x) = Some x.
Proof.
  induction l as [|y l IH]; simpl; [lia|].
  destruct (Nat.eqb_spec y x) as [->|Hne]; [done|].
  destruct (Z.ltb_spec (indexOf l x) 0) as [Hlt|Hge]; [lia|]. intros _.
  replace (Z.to_nat (indexOf l x + 1)) with (S (Z.to_nat (indexOf l x)))
    by lia.
  by apply IH.
Qed.

Lemma indexOf_lt l x : (indexOf l x < Z.of_nat (length l))%Z.
Proof.
  induction l as [|y l IH]; simpl; [lia|].
  destruct (Nat.eqb y x); [lia|].
  destruct (Z.ltb_spec (indexOf l x) 0); lia.
Qed.

Lemma identity_name_inj i j :
  ("c" +:+ pretty i)%string = ("c" +:+ pretty j)%string -> i = j :> Z.
Proof.
  intros H. apply (inj (String.append "c")) in H. by apply (inj pretty) in H.
Qed.

(** The identity of a class names the place of the class in the table. *)
Lemma identity_place this R :
  exists i : nat,
    fst (identity this R) = ("c" +:+ pretty (Z.of_nat i))%string /\
    actionIdentities (snd (identity this R)) !! i = Some (constructor this).
Proof.
  destruct (identity_spec this R) as (Hk & Hid & _).
  exists (Z.to_nat (indexOf (actionIdentities (snd (identity this R)))
                      (constructor this))).
  rewrite Z2Nat.id by done. split; [done|]. by apply indexOf_lookup.
Qed.

(** X5.  Two classes never share an identity: once an instance of a class has
    been given its identity, an instance of any other class is given a
    different one at any later time. *)
Theorem identities_distinct merge this other R R' :
  constructor this <> constructor other ->
  rtc (step merge) (snd (identity this R)) R' ->
  fst (identity other R') <> fst (identity this R).
Proof.
  intros Hne Hlife Heq.
  apply lifetime_table in Hlife.
  destruct (identity_place this R) as (i & Hi & Hti).
  destruct (identity_place other R') as (j & Hj & Htj).
  rewrite Hi, Hj in Heq. apply identity_name_inj in Heq.
  assert (j = i) as -> by lia.
  destruct (identity_spec other R') as (_ & _ & Hgrow & _).
  pose proof (prefix_lookup_Some _ _ _ _ Hti Hlife) as H1.
  pose proof (prefix_lookup_Some _ _ _ _ H1 Hgrow) as H2.
  congruence.
Qed.

Lemma identities_distinct_witness :
  let this := {| constructor := 3; payload := VNum 1 |} in
  let other := {| constructor := 4; payload := VNum 1 |} in
  fst (identity other (snd (identity this Reflux_init))) <>
  fst (identity this Reflux_init).
Proof.
  intros this other.
  apply (identities_distinct Immutable_merge this other Reflux_init
           (snd (identity this Reflux_init))).
  - simpl. lia.
  - apply rtc_refl.
Defined.

Lemma indexOf_push_new l x :
  (indexOf l x < 0)%Z -> indexOf (l ++ [x]) x = Z.of_nat (length l).
Proof.
  induction l as [|y l IH]; simpl.
  - by rewrite Nat.eqb_refl.
  - destruct (Nat.eqb y x); [lia|].
    destruct (Z.ltb_spec (indexOf l x) 0) as [Hlt|Hge]; [|lia]. intros _.
    rewrite IH by done.
    destruct (Z.ltb_spec (Z.of_nat (length l)) 0); lia.
Qed.

Lemma indexOf_push_other l x y :
  (indexOf l x < 0)%Z -> y <> x -> (indexOf (l ++ [y]) x < 0)%Z.
Proof.
  intros H Hne. induction l as [|z l IH]; simpl in *.
  - destruct (Nat.eqb_spec y x); [done|lia].
  - destruct (Nat.eqb z x); [lia|].
    destruct (Z.ltb_spec (indexOf l x) 0) as [Hlt|Hge]; [|lia].
    specialize (IH Hlt).
    destruct (Z.ltb_spec (indexOf (l ++ [y]) x) 0); lia.
Qed.

(** The getter, case by case. *)
Lemma identity_cases this R :
  ((0 <= indexOf (actionIdentities R) (constructor this))%Z /\
   identity this R =
   (("c" +:+ pretty (indexOf (actionIdentities R) (constructor this)))%string,
    R)) \/
  ((indexOf (actionIdentities R) (constructor this) < 0)%Z /\
   identity this R =
   (("c" +:+ pretty (Z.of_nat (length (actionIdentities R))))%string,
    set_actionIdentities (actionIdentities R ++ [constructor this]) R)).
Proof.
  unfold identity.
  destruct (Z.ltb_spec (indexOf (actionIdentities R) (constructor this)) 0)
    as [Hlt|Hge].
  - right. split; [done|]. simpl. by rewrite indexOf_push_new.
  - left. by split.
Qed.

(** What [subscribe] writes. *)
Lemma subscribe_spec this h R :
  subscriptions (subscribe this h R) =
  <[fst (identity this R) := handlers this R ++ [h]]> (subscriptions R) /\
  actionIdentities (subscribe this h R) =
  actionIdentities (snd (identity this R)) /\
  state (subscribe this h R) = state R /\
  heap (subscribe this h R) = heap R /\
  stateStream (subscribe this h R) = stateStream R /\
  lastAction (subscribe this h R) = lastAction R.
Proof.
  destruct (identity_spec this R) as (_ & _ & _ & Hsubs & Hs & Hh & Hst).
  assert (lastAction (snd (identity this R)) = lastAction R) as Hl.
  { unfold identity. by destruct (_ <? _)%Z. }
  unfold subscribe, handlers.
  destruct (identity this R) as [k R1]; simpl in *. rewrite Hsubs.
  destruct (subscriptions R !! k) as [hs|] eqn:E; simpl.
  - by rewrite Hsubs, E.
  - by rewrite lookup_insert_eq, insert_insert_eq.
Qed.

Lemma registered_grow R R' :
  registered R ->
  subscriptions R' = subscriptions R ->
  actionIdentities R `prefix_of` actionIdentities R' ->
  registered R'.
Proof.
  intros Hreg Hsubs Hpre k hs Hk. rewrite Hsubs in Hk.
  destruct (Hreg k hs Hk) as (Hne & i & Hi & ->).
  split; [done|]. exists i. split; [|done].
  apply prefix_length in Hpre. lia.
Qed.

Lemma subscribe_registered this h R :
  registered R -> registered (subscribe this h R).
Proof.
  intros Hreg k hs Hk.
  destruct (subscribe_spec this h R) as (Hsubs & Htab & _).
  rewrite Hsubs in Hk. rewrite Htab.
  destruct (identity_spec this R) as (_ & _ & Hpre & _).
  destruct (decide (fst (identity this R) = k)) as [<-|Hne].
  - rewrite lookup_insert_eq in Hk. injection Hk as <-.
    split; [by destruct (handlers this R)|].
    destruct (identity_place this R) as (i & Hi & Hti).
    exists (Z.of_nat i). split; [|done].
    apply lookup_lt_Some in Hti. lia.
  - rewrite lookup_insert_ne in Hk by done.
    destruct (Hreg k hs Hk) as (Hnil & i & Hi & ->).
    split; [done|]. exists i. split; [|done].
    apply prefix_length in Hpre. lia.
Qed.

Lemma dispatch_subscriptions merge this R :
  subscriptions (fst (dispatch merge this R)) = subscriptions R.
Proof.
  destruct (identity_spec this R) as (_ & _ & _ & Hsubs & _).
  rewrite dispatch_handlers. cbv zeta.
  destruct (_ =? _); [done|].
  rewrite flatMap_complete_fst.
  by destruct (flatMap_fold_kept merge this (handlers this R)
                 (set_lastAction this (snd (identity this R)),
                  Dispatch_create (fst (identity this R)))) as (_ & -> & _).
Qed.

Lemma step_registered merge R R' :
  step merge R R' -> registered R -> registered R'.
Proof.
  intros Hstep Hreg.
  pose proof (step_table merge R R' Hstep) as Hpre.
  destruct Hstep as [this R0|this h R0|this R0|i R0 D|sel R0].
  - apply (registered_grow R0); [done| |done]. apply identity_spec.
  - by apply subscribe_registered.
  - apply (registered_grow R0); [done| |done]. apply dispatch_subscriptions.
  - apply (registered_grow R0); [done| |done].
    by destruct (deliver_kept merge i (R0, D)) as (_ & -> & _).
  - by apply (registered_grow R0).
Qed.

(** X6.  From the start of the process on, every entry of the registry of
    handlers is keyed by the identity of a class that is in the identity
    table, and holds at least one handler: [subscribe] never leaves an empty
    list behind. *)
Theorem registry_well_formed merge R :
  rtc (step merge) Reflux_init R -> registered R.
Proof.
  intros H.
  assert (registered Reflux_init) as Hinit.
  { intros k hs Hk. simpl in Hk. by rewrite lookup_empty in Hk. }
  revert Hinit. generalize Reflux_init H. clear H.
  induction 1 as [|R1 R2 R3 Hstep _ IH]; intros Hreg; [done|].
  by apply IH, (step_registered merge R1).
Qed.

Lemma registry_well_formed_witness :
  registered (subscribe anAction (sync_handler [Complete]) Reflux_init).
Proof.
  apply (registry_well_formed Immutable_merge).
  apply rtc_once.
  apply (step_subscribe Immutable_merge anAction (sync_handler [Complete])
           Reflux_init).
Defined.

Lemma handlers_unknown other R :
  registered R ->
  (indexOf (actionIdentities R) (constructor other) < 0)%Z ->
  handlers other R = [].
Proof.
  intros Hreg Hneg. unfold handlers.
  destruct (identity_cases other R) as [[Hge _]|[_ ->]]; [lia|]. simpl.
  destruct (subscriptions R !! _) as [hs|] eqn:E; [|done].
  destruct (Hreg _ _ E) as (_ & i & Hi & Heq).
  apply identity_name_inj in Heq. lia.
Qed.

Lemma handlers_subscribe_other this other h R :
  registered R ->
  constructor other <> constructor this ->
  handlers other (subscribe this h R) = handlers other R.
Proof.
  intros Hreg Hne.
  destruct (subscribe_spec this h R) as (Hsubs & Htab & _).
  destruct (identity_spec this R) as (_ & _ & Hpre & _).
  destruct (Z.ltb_spec (indexOf (actionIdentities R) (constructor other)) 0)
    as [Hneg|Hknown].
  - (* the class of [other] has no identity yet *)
    rewrite (handlers_unknown other R) by done.
    apply handlers_unknown; [by apply subscribe_registered|].
    rewrite Htab.
    destruct (identity_cases this R) as [[_ ->]|[_ ->]]; simpl; [done|].
    apply indexOf_push_other; [done|congruence].
  - (* the class of [other] has its identity *)
    unfold handlers.
    rewrite (identity_known other R) by done.
    rewrite (identity_known other (subscribe this h R))
      by (rewrite Htab, (indexOf_prefix _ _ _ Hpre); done).
    rewrite Htab, (indexOf_prefix _ _ _ Hpre) by done. simpl.
    rewrite Hsubs, lookup_insert_ne; [done|].
    destruct (identity_place this R) as (i & Hi & Hti). rewrite Hi.
    intros Heq. apply identity_name_inj in Heq.
    pose proof (indexOf_lookup _ _ Hknown) as Hto.
    pose proof (prefix_lookup_Some _ _ _ _ Hto Hpre) as Hto'.
    rewrite <- Heq, Nat2Z.id in Hto'. congruence.
Qed.

(** X7.  [subscribe] appends: the new handler comes last among the handlers
    of its class, after those registered before, in their order; the
    handlers of every other class, the state and the stream are left as they
    were. *)
Theorem subscribe_appends_handler this h R :
  handlers this (subscribe this h R) = handlers this R ++ [h] /\
  (forall other,
     registered R ->
     constructor other <> constructor this ->
     handlers other (subscribe this h R) = handlers other R) /\
  state (subscribe this h R) = state R /\
  stateStream (subscribe this h R) = stateStream R.
Proof.
  destruct (subscribe_spec this h R) as (Hsubs & Htab & Hs & _ & Hst & _).
  split; [|split; [|by split]].
  - destruct (identity_spec this R) as (Hk & Hid & _).
    unfold handlers at 1.
    rewrite identity_known by (by rewrite Htab).
    rewrite Htab, <- Hk. simpl. by rewrite Hsubs, lookup_insert_eq.
  - intros other. apply handlers_subscribe_other.
Qed.

Lemma subscribe_appends_handler_witness :
  let other := {| constructor := 5; payload := VUndefined |} in
  handlers other (subscribe anAction (sync_handler [Complete]) Reflux_init) =
  handlers other Reflux_init.
Proof.
  intros other.
  apply (proj1 (proj2 (subscribe_appends_handler anAction
                         (sync_handler [Complete]) Reflux_init)) other).
  - intros k hs Hk. simpl in Hk. by rewrite lookup_empty in Hk.
  - simpl. lia.
Defined.

(** ** Action.dispatch and Action.lastAction *)

Lemma run_kept merge schedule : forall s,
  registry_kept (fst s) (fst (run merge schedule s)).
Proof.
  induction schedule as [|i schedule IH]; intros s.
  - apply registry_kept_refl.
  - change (run merge (i :: schedule) s)
      with (run merge schedule (deliver merge i s)).
    eapply registry_kept_trans; [apply deliver_kept|apply IH].
Qed.

Lemma handlers_ext other R1 R2 :
  actionIdentities R1 = actionIdentities R2 ->
  subscriptions R1 = subscriptions R2 ->
  handlers other R1 = handlers other R2.
Proof.
  intros Ht Hs. unfold handlers, identity. rewrite Ht.
  destruct (_ <? _)%Z; simpl; by rewrite Hs.
Qed.



(** X9.  [Action.lastAction] is the action dispatched last, whatever its
    handlers do and whatever arrives afterwards; a dispatch and the results
    it receives never add, remove or reorder a registered handler. *)
Theorem dispatch_records_last_action merge this R schedule :
  let R' := fst (run merge schedule (dispatch merge this R)) in
  lastAction R' = Some this /\
  subscriptions R' = subscriptions R /\
  (forall other, handlers other R' = handlers other (snd (identity this R))).
Proof.
  intros R'.
  destruct (run_kept merge schedule (dispatch merge this R))
    as (Htab & Hsubs & Hlast). fold R' in Htab, Hsubs, Hlast.
  assert (lastAction (fst (dispatch merge this R)) = Some this) as Hl.
  { rewrite dispatch_handlers. cbv zeta. destruct (_ =? _); [done|].
    rewrite flatMap_complete_fst.
    by destruct (flatMap_fold_kept merge this (handlers this R)
                   (set_lastAction this (snd (identity this R)),
                    Dispatch_create (fst (identity this R))))
      as (_ & _ & ->). }
  rewrite dispatch_table in Htab. rewrite dispatch_subscriptions in Hsubs.
  split; [congruence|]. split; [done|].
  intros other. apply handlers_ext; [done|].
  destruct (identity_spec this R) as (_ & _ & _ & Hsubs' & _). congruence.
Qed.

Section DispatchSettled.

Variable merge : nat -> value -> value -> option (value * nat).

Lemma subscriber_complete_settled D :
  settled D -> settled (subscriber_complete D).
Proof.
  unfold settled, subscriber_complete, resolve; simpl.
  destruct (closed D); intros H; rewrite H; done.
Qed.

Lemma on_next_settled x s :
  settled (snd s) -> settled (snd (on_next merge x s)).
Proof.
  intros H. unfold on_next.
  destruct (merge_or_replace merge x (fst s)) as [e|[v R]].
  - by apply subscriber_complete_settled.
  - unfold skipWhile. destruct (skipping (snd s)); [|done].
    by destruct (negb _).
Qed.

Lemma notify_settled n s :
  settled (snd s) -> settled (snd (notify merge n s)).
Proof.
  intros H. destruct n as [x|e|].
  - by apply on_next_settled.
  - by apply subscriber_complete_settled.
  - unfold notify, inner_complete. destruct (_ && _); [|done].
    by apply subscriber_complete_settled.
Qed.

Lemma feed_settled ns : forall s,
  settled (snd s) -> settled (snd (fst (feed merge ns s))).
Proof.
  induction ns as [|n ns IH]; intros s H; simpl; [done|].
  destruct (closed (snd s)); [done|].
  destruct (terminal n); simpl; [by apply notify_settled|].
  by apply IH, notify_settled.
Qed.

Lemma flatMap_next_settled this h s :
  settled (snd s) -> settled (snd (flatMap_next merge this h s)).
Proof.
  intros H. unfold flatMap_next. destruct (closed (snd s)) eqn:E; [done|].
  assert (settled (add_call (state (fst s)) (snd s))) as H'
    by (unfold settled in *; simpl; by rewrite E in *).
  destruct (h _ _) as [e|v|o]; try by apply subscriber_complete_settled.
  pose proof (feed_settled (sync o)
                (fst s, set_active (active (add_call (state (fst s))
                   (snd s)) + 1) (add_call (state (fst s)) (snd s))) H')
    as Hf.
  by destruct (feed _ _ _) as [[R' D'] ended].
Qed.

Lemma flatMap_fold_settled this hs : forall s,
  settled (snd s) ->
  settled (snd (fold_left (fun s h => flatMap_next merge this h s) hs s)).
Proof.
  induction hs as [|h hs IH]; intros s H; simpl; [done|].
  by apply IH, flatMap_next_settled.
Qed.

Lemma dispatch_settled this R : settled (snd (dispatch merge this R)).
Proof.
  rewrite dispatch_handlers. cbv zeta.
  destruct (_ =? _); [done|].
  unfold flatMap_complete.
  pose proof (flatMap_fold_settled this (handlers this R)
                (set_lastAction this (snd (identity this R)),
                 Dispatch_create (fst (identity this R))) eq_refl) as H.
  destruct (closed _) eqn:E; [done|].
  destruct (_ =? _); [by apply subscriber_complete_settled|].
  unfold settled in *. simpl. by rewrite E in *.
Qed.

Lemma run_settled schedule : forall s,
  settled (snd s) -> settled (snd (run merge schedule s)).
Proof.
  induction schedule as [|i schedule IH]; intros s H; [done|].
  change (run merge (i :: schedule) s)
    with (run merge schedule (deliver merge i s)).
  apply IH. unfold deliver. destruct (closed (snd s)) eqn:E; [done|].
  destruct (inner (snd s) !! i) as [[|n rest]|]; try done.
  apply notify_settled. unfold settled in *. simpl. by rewrite E in *.
Qed.

End DispatchSettled.

(** X10.  The promise of a dispatch and its chain go together: the promise is
    pending exactly as long as the chain is subscribed, and it is resolved
    exactly when the chain has been unsubscribed.  Once the promise is
    resolved, nothing that the handlers of that dispatch still deliver has
    any effect. *)
Theorem resolved_dispatch_is_inert merge this R schedule :
  let s := run merge schedule (dispatch merge this R) in
  (completion (snd s) = Resolved <-> closed (snd s) = true) /\
  (completion (snd s) = Pending <-> closed (snd s) = false) /\
  (completion (snd s) = Resolved ->
   forall schedule', run merge schedule' s = s).
Proof.
  intros s.
  pose proof (run_settled merge schedule _ (dispatch_settled merge this R))
    as H. fold s in H. unfold settled in H.
  destruct (closed (snd s)) eqn:E; rewrite H.
  - repeat split; try done. intros _ schedule'. by apply run_closed.
  - repeat split; done.
Qed.

Lemma resolved_dispatch_is_inert_witness :
  let s := run Immutable_merge [0; 0]
             (dispatch Immutable_merge anAction
                (engine_with
                   [async_handler
                      [Next (Plain (obj1 5 "a" (VNum 1))); Complete]])) in
  run Immutable_merge [0; 1; 0] s = s.
Proof.
  intros s.
  apply (proj2 (proj2 (resolved_dispatch_is_inert Immutable_merge anAction
                         (engine_with
                            [async_handler
                               [Next (Plain (obj1 5 "a" (VNum 1)));
                                Complete]]) [0; 0]))).
  vm_compute. reflexivity.
Defined.

Section DispatchQuiet.

Variable merge : nat -> value -> value -> option (value * nat).









End DispatchQuiet.



Section DispatchSkipping.

Variable merge : nat -> value -> value -> option (value * nat).

Lemma values_cons n ns :
  values (n :: ns) = (if terminal n then 0 else 1) + values ns.
Proof.
  unfold values. rewrite filter_cons.
  destruct (terminal n); by destruct (decide _).
Qed.

Lemma subscriber_complete_skip D :
  index (subscriber_complete D) = index D /\
  skipping (subscriber_complete D) = skipping D /\
  key (subscriber_complete D) = key D.
Proof.
  unfold subscriber_complete, resolve; simpl. by destruct (completion D).
Qed.

(** A value that arrives while fewer values than there are handlers have
    arrived is merged and not published. *)
Lemma on_next_skipped x s :
  skipping (snd s) = true ->
  index (snd s) + 1 < awaited s ->
  stateStream (fst (on_next merge x s)) = stateStream (fst s) /\
  (closed (snd (on_next merge x s)) = true \/
   (skipping (snd (on_next merge x s)) = true /\
    index (snd (on_next merge x s)) = index (snd s) + 1 /\
    inner (snd (on_next merge x s)) = inner (snd s) /\
    awaited (on_next merge x s) = awaited s)).
Proof.
  intros Hskip Hlt. unfold on_next.
  destruct (merge_or_replace merge x (fst s)) as [e|[v R]] eqn:E.
  - split; [done|]. left. apply on_error_closed.
  - destruct (merge_or_replace_kept merge x (fst s) v R E) as (_ & Hsubs & _).
    assert (stateStream R = stateStream (fst s)) as Hst.
    { unfold merge_or_replace in E.
      destruct x as [st|st]; destruct (is_undefined st); simpl in E.
      - by injection E as <- <-.
      - destruct (merge _ _ _) as [[m h]|]; [|done]. by injection E as <- <-.
      - by injection E as <- <-.
      - by injection E as <- <-. }
    unfold skipWhile. rewrite Hskip. unfold awaited in *. simpl.
    rewrite Hsubs.
    destruct (Nat.ltb_spec (index (snd s) + 1)
                (length (default [] (subscriptions (fst s) !! key (snd s)))))
      as [_|Hge]; [|lia].
    simpl. split; [done|]. right. by rewrite Hsubs.
Qed.

Lemma notify_terminal_skip n s :
  terminal n = true ->
  index (snd (notify merge n s)) = index (snd s) /\
  skipping (snd (notify merge n s)) = skipping (snd s) /\
  key (snd (notify merge n s)) = key (snd s) /\
  (closed (snd (notify merge n s)) = true \/
   inner (snd (notify merge n s)) = inner (snd s)).
Proof.
  destruct n as [x|e|]; [done| |]; intros _; simpl.
  - unfold catch_error.
    destruct (subscriber_complete_skip (snd s)) as (-> & -> & ->).
    repeat split. left. apply subscriber_complete_inner.
  - unfold inner_complete. destruct (_ && _); simpl.
    + destruct (subscriber_complete_skip
                  (set_active (active (snd s) - 1) (snd s)))
        as (-> & -> & ->).
      repeat split. left. apply subscriber_complete_inner.
    + repeat split. by right.
Qed.

Lemma run_skipped schedule : forall s,
  skipping (snd s) = true ->
  index (snd s) + values (arrivals schedule (inner (snd s))) < awaited s ->
  stateStream (fst (run merge schedule s)) = stateStream (fst s).
Proof.
  induction schedule as [|i schedule IH]; intros s Hskip Hlt; [done|].
  change (run merge (i :: schedule) s)
    with (run merge schedule (deliver merge i s)).
  simpl in Hlt. unfold deliver.
  destruct (closed (snd s)) eqn:Hlive; [by rewrite run_closed|].
  destruct (inner (snd s) !! i) as [[|n rest]|] eqn:Hi;
    try by apply IH.
  rewrite values_cons in Hlt.
  set (s1 := (fst s, set_inner (<[i:=if terminal n then [] else rest]>
                                  (inner (snd s))) (snd s))) in *.
  destruct (terminal n) eqn:Hn.
  - destruct (notify_terminal_skip n s1 Hn) as (Hidx & Hsk & Hkey & Hcl).
    assert (fst (notify merge n s1) = fst s) as Hfst
      by (by rewrite notify_terminal_fst).
    destruct Hcl as [Hcl|Hin].
    + by rewrite run_closed, Hfst.
    + rewrite IH, Hfst; [done|by rewrite Hsk|].
      rewrite Hidx, Hin. unfold awaited. rewrite Hfst, Hkey. simpl in *.
      unfold awaited in Hlt. lia.
  - destruct n as [x| |]; try done. simpl.
    destruct (on_next_skipped x s1 Hskip) as [Hst [Hcl|(Hsk & Hidx & Hin & Haw)]].
    + unfold awaited in *. simpl in *. lia.
    + by rewrite run_closed.
    + rewrite IH; [done|done|].
      rewrite Hidx, Hin, Haw. unfold awaited in *. simpl in *. lia.
Qed.

Lemma feed_terminal_skip ns : forall s,
  forallb terminal ns = true ->
  index (snd (fst (feed merge ns s))) = index (snd s) /\
  skipping (snd (fst (feed merge ns s))) = skipping (snd s) /\
  key (snd (fst (feed merge ns s))) = key (snd s).
Proof.
  destruct ns as [|n ns]; intros s H; simpl; [done|].
  simpl in H. apply andb_prop in H as [Hn _]. rewrite Hn.
  destruct (closed _); [done|]. simpl.
  by destruct (notify_terminal_skip n s Hn) as (-> & -> & -> & _).
Qed.

Lemma flatMap_fold_skip this v hs : forall s,
  state (fst s) = v ->
  Forall (fun h => sends_sync_result (h v this) = false) hs ->
  let s' := fold_left (fun s h => flatMap_next merge this h s) hs s in
  fst s' = fst s /\
  index (snd s') = index (snd s) /\
  skipping (snd s') = skipping (snd s) /\
  key (snd s') = key (snd s).
Proof.
  induction hs as [|h hs IH]; intros s Hv Hhs; simpl; [done|].
  inversion Hhs as [|? ? Hh Hrest]; subst.
  assert (fst (flatMap_next merge this h s) = fst s /\
          index (snd (flatMap_next merge this h s)) = index (snd s) /\
          skipping (snd (flatMap_next merge this h s)) = skipping (snd s) /\
          key (snd (flatMap_next merge this h s)) = key (snd s))
    as (H1 & H2 & H3 & H4).
  { unfold flatMap_next. destruct (closed (snd s)); [done|].
    destruct (h _ _) as [e|x|o].
    - simpl. unfold catch_error.
      by destruct (subscriber_complete_skip
                     (add_call (state (fst s)) (snd s))) as (-> & -> & ->).
    - simpl. unfold catch_error.
      by destruct (subscriber_complete_skip
                     (add_call (state (fst s)) (snd s))) as (-> & -> & ->).
    - simpl in Hh. apply negb_false_iff in Hh.
      pose proof (feed_terminal_fst merge (sync o)
                    (fst s, set_active (active (add_call (state (fst s))
                       (snd s)) + 1) (add_call (state (fst s)) (snd s)))
                    Hh) as Hf.
      pose proof (feed_terminal_skip (sync o)
                    (fst s, set_active (active (add_call (state (fst s))
                       (snd s)) + 1) (add_call (state (fst s)) (snd s)))
                    Hh) as Hk.
      destruct (feed _ _ _) as [[R' D'] ended]. simpl in *. done. }
  destruct (IH (flatMap_next merge this h s)) as (H5 & H6 & H7 & H8);
    [by rewrite H1|done|].
  repeat split; congruence.
Qed.

End DispatchSkipping.

(** X12.  No publication in the middle of a dispatch: when the handlers
    deliver their results after [dispatch] has returned, nothing is published
    as long as fewer values have arrived than there are handlers. *)
Theorem no_publish_before_all_values merge this R schedule :
  Forall (fun h => sends_sync_result (h (state R) this) = false)
    (handlers this R) ->
  let s := dispatch merge this R in
  values (arrivals schedule (inner (snd s))) < length (handlers this R) ->
  stateStream (fst (run merge schedule s)) = stateStream R.
Proof.
  intros Hhs s. unfold s. rewrite dispatch_handlers. cbv zeta.
  destruct (identity_spec this R) as (_ & _ & _ & Hsubs & Hs & _ & Hst).
  destruct (_ =? _); [intros _; by rewrite run_closed|].
  destruct (flatMap_fold_skip merge this (state R) (handlers this R)
              (set_lastAction this (snd (identity this R)),
               Dispatch_create (fst (identity this R))))
    as (H1 & H2 & H3 & H4); try done.
  set (s1 := fold_left _ _ _) in *.
  unfold flatMap_complete. destruct (closed (snd s1)) eqn:Hcl.
  - intros _. by rewrite run_closed, H1.
  - destruct (_ =? _).
    + intros _. rewrite run_closed by apply subscriber_complete_inner.
      simpl. by rewrite H1.
    + intros Hlt. rewrite run_skipped; simpl.
      * by rewrite H1.
      * by rewrite H3.
      * unfold awaited. simpl. rewrite H2, H4, H1. simpl.
        simpl in Hlt. apply Hlt.
Qed.

Lemma no_publish_before_all_values_witness :
  let R := engine_with
             [async_handler [Next (Plain (obj1 5 "a" (VNum 1))); Complete];
              async_handler [Next (Plain (obj1 6 "b" (VNum 2))); Complete]] in
  stateStream (fst (run Immutable_merge [0; 0]
                      (dispatch Immutable_merge anAction R))) =
  stateStream R.
Proof.
  intros R.
  apply (no_publish_before_all_values Immutable_merge anAction R [0; 0]).
  - vm_compute. repeat constructor.
  - vm_compute. lia.
Defined.

(** ** BindAction and Store *)

Lemma handlers_subscribe_same this h R :
  handlers this (subscribe this h R) = handlers this R ++ [h].
Proof.
  destruct (subscribe_spec this h R) as (Hsubs & Htab & _).
  destruct (identity_spec this R) as (Hk & Hid & _).
  unfold handlers at 1.
  rewrite identity_known by (by rewrite Htab).
  rewrite Htab, <- Hk. simpl. by rewrite Hsubs, lookup_insert_eq.
Qed.

Lemma handlers_new this R :
  handlers this R = handlers (new (constructor this)) R.
Proof. unfold handlers, identity. done. Qed.

Lemma Store_handlers this cls refluxActions : forall R,
  registered R ->
  handlers (new cls) (Store (Some refluxActions) this R) =
  handlers (new cls) R ++
  map (fun entry => this (fst entry))
    (filter (fun entry => snd entry = cls) refluxActions) /\
  registered (Store (Some refluxActions) this R).
Proof.
  induction refluxActions as [|[name c] rest IH]; intros R Hreg; simpl.
  - by rewrite app_nil_r.
  - destruct (IH (subscribe (new c) (this name) R)) as [H1 H2];
      [by apply subscribe_registered|].
    simpl in H1, H2. split; [|done]. rewrite H1, filter_cons. simpl.
    destruct (decide (c = cls)) as [->|Hne]; simpl.
    + by rewrite handlers_subscribe_same, <- app_assoc.
    + rewrite handlers_subscribe_other; [done|done|]. simpl. congruence.
Qed.

(** X13.  Constructing a store registers each of its bound methods as a
    handler of the class it is bound to: the handlers of a class are those it
    had, followed by the store's methods bound to that class, in the order in
    which they were bound.  A store without bound methods registers
    nothing. *)
Theorem Store_registers_bound_methods this cls refluxActions R :
  registered R ->
  handlers (new cls) (Store (Some refluxActions) this R) =
  handlers (new cls) R ++
  map (fun entry => this (fst entry))
    (filter (fun entry => snd entry = cls) refluxActions) /\
  Store None this R = R.
Proof.
  intros Hreg. split; [|done]. by apply Store_handlers.
Qed.

Lemma Store_registers_bound_methods_witness :
  let this := fun name : string => sync_handler [Complete] in
  handlers (new 4)
    (Store (Some [("add"%string, 4); ("remove"%string, 5)]) this
       Reflux_init) =
  handlers (new 4) Reflux_init ++
  map (fun entry : string * nat => this (fst entry))
    (filter (fun entry : string * nat => snd entry = 4)
       [("add"%string, 4); ("remove"%string, 5)]).
Proof.
  intros this.
  apply (Store_registers_bound_methods this 4
           [("add"%string, 4); ("remove"%string, 5)] Reflux_init).
  intros k hs Hk. simpl in Hk. by rewrite lookup_empty in Hk.
Defined.

Lemma bound_action_bind_eq name cls o :
  bound_action name (bind_action name cls o) = Some cls.
Proof.
  induction o as [|[k c] o IH]; simpl.
  - by rewrite String.eqb_refl.
  - destruct (String.eqb k name) eqn:E; simpl; by rewrite E.
Qed.

Lemma bound_action_bind_ne name name' cls o :
  name <> name' ->
  bound_action name' (bind_action name cls o) = bound_action name' o.
Proof.
  intros Hne. induction o as [|[k c] o IH]; simpl.
  - by destruct (String.eqb_spec name name').
  - destruct (String.eqb_spec k name) as [->|Hk]; simpl.
    + by destruct (String.eqb_spec name name').
    + by rewrite IH.
Qed.

Lemma bind_action_names name cls o :
  map fst (bind_action name cls o) =
  if bool_decide (name ∈ map fst o) then map fst o else map fst o ++ [name].
Proof.
  induction o as [|[k c] o IH]; simpl; [done|].
  destruct (String.eqb_spec k name) as [->|Hk]; simpl.
  - rewrite bool_decide_true; [done|by left].
  - rewrite IH. destruct (bool_decide (name ∈ map fst o)) eqn:E.
    + apply bool_decide_eq_true in E.
      rewrite bool_decide_true; [done|by right].
    + apply bool_decide_eq_false in E.
      rewrite bool_decide_false; [done|].
      intros [?|?]%elem_of_cons; done.
Qed.

(** X14.  [BindAction] throws exactly when the method has fewer than two
    parameters.  Otherwise it binds the method to the class of its second
    parameter, a later binding of the same method replacing an earlier one,
    and leaves the other methods bound as they were, in their order. *)
Theorem BindAction_binds_second_parameter paramtypes propertyKey metadata :
  (BindAction paramtypes propertyKey metadata = None <->
   length paramtypes < 2) /\
  (forall o,
     BindAction paramtypes propertyKey metadata = Some o ->
     bound_action propertyKey o = paramtypes !! 1 /\
     (forall name, propertyKey <> name ->
        bound_action name o = bound_action name (default [] metadata)) /\
     map fst o =
     if bool_decide (propertyKey ∈ map fst (default [] metadata))
     then map fst (default [] metadata)
     else map fst (default [] metadata) ++ [propertyKey]).
Proof.
  unfold BindAction.
  destruct (Nat.ltb_spec (length paramtypes) 2) as [Hlt|Hge].
  - split; [done|]. intros o [=].
  - destruct (paramtypes !! 1) as [cls|] eqn:E.
    + split; [split; [done|lia]|]. intros o [= <-].
      split; [apply bound_action_bind_eq|].
      split; [intros name; apply bound_action_bind_ne|].
      apply bind_action_names.
    + apply lookup_ge_None in E. lia.
Qed.

Lemma BindAction_binds_second_parameter_witness :
  bound_action "add" [("add"%string, 4)] = [0; 4] !! 1.
Proof.
  apply (proj2 (BindAction_binds_second_parameter [0; 4] "add" None)
           [("add"%string, 4)]).
  reflexivity.
Defined.

(** ** BindData *)

Lemma Component_next_none c :
  held c = [] -> forall state, Component_next state c = c.
Proof.
  unfold held, Component_next. intros H state.
  destruct c as [[d|] inv]; simpl in *; [|done].
  rewrite H. simpl. rewrite app_nil_r. by destruct d; simpl in *; subst.
Qed.

Lemma publishes_none states : forall cur c,
  held c = [] ->
  snd (lifetime (map Publish states) (cur, c)) = c.
Proof.
  induction states as [|st states IH]; intros cur c H; [done|].
  unfold lifetime in *. simpl. rewrite Component_next_none by done.
  by apply IH.
Qed.

(** X15.  [ngOnDestroy] ends every subscription of the component: whatever
    is published afterwards, no consumer of the component is invoked any
    more.  Destroying a destroyed component changes nothing. *)
Theorem destroy_stops_notifications c cur states :
  let c' := snd (lifetime (map Publish states) (cur, ngOnDestroy c)) in
  held c' = [] /\
  invoked c' = invoked c /\
  ngOnDestroy (ngOnDestroy c) = ngOnDestroy c.
Proof.
  intros c'. unfold c'.
  assert (held (ngOnDestroy c) = []) as H.
  { by destruct c as [[d|] inv]. }
  rewrite publishes_none by done.
  split; [done|]. by destruct c as [[d|] inv].
Qed.

Lemma ngOnInit_members this cur c :
  bound_members (ngOnInit this cur c) = bound_members c.
Proof.
  destruct c as [[[sels subs dead]|] inv]; [|done].
  unfold ngOnInit, bound_members; simpl. by destruct dead.
Qed.

(** X16.  [ngOnInit] subscribes only after a destruction: on a component
    that is not destroyed it changes nothing; after [ngOnDestroy] it makes
    one subscription for each bound member, in the order of their binding,
    all of them for the instance it is called on, and a second [ngOnInit]
    changes nothing. *)
Theorem init_resubscribes_once this cur c :
  (is_destroyed c = false -> ngOnInit this cur c = c) /\
  (let c' := ngOnInit this cur (ngOnDestroy c) in
   map (fun b => (DataBindings.target b, DataBindings.key b)) (held c') =
   map (fun k => (this, k)) (bound_members c) /\
   is_destroyed c' = false /\
   forall this' cur', ngOnInit this' cur' c' = c').
Proof.
  destruct c as [[[sels subs dead]|] inv]; [|done].
  unfold is_destroyed, ngOnInit, ngOnDestroy, held, bound_members; simpl.
  split; [by intros ->|].
  split; [|done]. rewrite !map_map. by apply map_ext.
Qed.

Lemma init_resubscribes_once_witness :
  ngOnInit 7 VNull
    (snd (lifetime [Decorate (Some (property "count")) "count"]
            (VNull, undecorated))) =
  snd (lifetime [Decorate (Some (property "count")) "count"]
         (VNull, undecorated)).
Proof.
  apply (proj1 (init_resubscribes_once 7 VNull
                  (snd (lifetime [Decorate (Some (property "count")) "count"]
                          (VNull, undecorated))))).
  reflexivity.
Defined.

Lemma set_selector_fresh k sel l :
  k ∉ map fst l -> map fst (set_selector k sel l) = map fst l ++ [k].
Proof.
  induction l as [|[k' x] l IH]; simpl; [done|]. intros H.
  destruct (String.eqb_spec k' k) as [->|Hne].
  - destruct H. by left.
  - simpl. rewrite IH; [done|]. intros Hin. apply H. by right.
Qed.

Lemma decorations_balanced ds : forall cur c,
  NoDup (bound_members c ++ map snd ds) ->
  balanced c -> is_destroyed c = false ->
  let c' := snd (lifetime (map (fun d => Decorate (fst d) (snd d)) ds)
                   (cur, c)) in
  bound_members c' = bound_members c ++ map snd ds /\
  balanced c' /\ is_destroyed c' = false.
Proof.
  induction ds as [|[sel k] ds IH]; intros cur c Hnd Hbal Hlive; simpl.
  - by rewrite app_nil_r.
  - unfold lifetime in *. simpl.
    set (c1 := BindData sel 0 k cur c).
    assert (bound_members c1 = bound_members c ++ [k]) as Hm.
    { apply NoDup_app in Hnd as (_ & Hnd & _).
      destruct c as [[[sels subs dead]|] inv]; [|done].
      unfold c1, BindData, bound_members in *. simpl in *.
      apply set_selector_fresh. intros Hin. apply (Hnd k Hin). by left. }
    assert (is_destroyed c1 = false) as Hl1.
    { by destruct c as [[[sels subs dead]|] inv]. }
    assert (balanced c1) as Hb1.
    { unfold balanced. rewrite Hl1, Hm. unfold balanced in Hbal.
      rewrite Hlive in Hbal. subst c1.
      destruct c as [[[sels subs dead]|] inv];
        unfold BindData, held in *; simpl in *;
        rewrite ?length_app; simpl; lia. }
    destruct (IH cur c1) as (H1 & H2 & H3); try done.
    + by rewrite Hm, <- app_assoc.
    + split; [|done]. by rewrite H1, Hm, <- app_assoc.
Qed.

Lemma live_balanced e s :
  after_decoration e = true ->
  balanced (snd s) ->
  balanced (snd (live e s)) /\
  bound_members (snd (live e s)) = bound_members (snd s).
Proof.
  intros He Hbal. destruct e as [sel k|this| |state]; [done| | |]; simpl.
  - split; [|apply ngOnInit_members].
    destruct s as [cur [[[sels subs dead]|] inv]]; [|done].
    unfold balanced, ngOnInit, held, is_destroyed, bound_members in *.
    simpl in *. destruct dead; simpl; [|done].
    rewrite length_app, !length_map. lia.
  - destruct s as [cur [[[sels subs dead]|] inv]]; done.
  - destruct s as [cur [[[sels subs dead]|] inv]]; [|done].
    unfold balanced, Component_next, held, is_destroyed, bound_members in *.
    cbn in *. split; [|done]. rewrite !length_map in *. done.
Qed.

Lemma lifetime_balanced events : forall s,
  Forall (fun e => after_decoration e = true) events ->
  balanced (snd s) ->
  balanced (snd (lifetime events s)) /\
  bound_members (snd (lifetime events s)) = bound_members (snd s).
Proof.
  induction events as [|e events IH]; intros s He Hbal; [done|].
  inversion He as [|? ? He1 He2]; subst.
  destruct (live_balanced e s He1 Hbal) as [H1 H2].
  destruct (IH (live e s) He2 H1) as [H3 H4].
  unfold lifetime in *. simpl. split; [done|congruence].
Qed.

(** X17.  A component leaks no subscription: once its members have been
    decorated, each one once, whatever the sequence of [ngOnInit],
    [ngOnDestroy] and publications, the component holds no subscription when
    it is destroyed, and exactly one for each decorated member when it is
    not. *)
Theorem no_subscription_leak ds events cur :
  NoDup (map snd ds) ->
  Forall (fun e => after_decoration e = true) events ->
  let c := snd (lifetime (map (fun d => Decorate (fst d) (snd d)) ds ++ events)
                  (cur, undecorated)) in
  length (held c) = (if is_destroyed c then 0 else length ds) /\
  bound_members c = map snd ds.
Proof.
  intros Hnd He c.
  destruct (decorations_balanced ds cur undecorated) as (H1 & H2 & H3);
    try done.
  assert (c = snd (lifetime events
                     (lifetime (map (fun d => Decorate (fst d) (snd d)) ds)
                        (cur, undecorated)))) as ->.
  { unfold c, lifetime. by rewrite fold_left_app. }
  destruct (lifetime_balanced events _ He H2) as [H4 H5].
  unfold balanced in H4.
  rewrite H5, H1 in H4. simpl in H4. rewrite length_map in H4.
  split; [done|]. by rewrite H5, H1.
Qed.

Lemma no_subscription_leak_witness :
  let c := snd (lifetime
                  (map (fun d => Decorate (fst d) (snd d))
                     [(Some (property "count"), "count"%string)] ++
                   [OnDestroy; OnInit 7; Publish (obj1 1 "count" (VNum 1));
                    OnInit 7])
                  (VNull, undecorated)) in
  length (held c) = (if is_destroyed c then 0 else 1).
Proof.
  intros c.
  apply (no_subscription_leak [(Some (property "count"), "count"%string)]
           [OnDestroy; OnInit 7; Publish (obj1 1 "count" (VNum 1)); OnInit 7]
           VNull).
  - simpl. repeat constructor. apply not_elem_of_nil.
  - repeat constructor.
Defined.

(** ** ListWithApiComponent *)

Section ListWithApiProperties.

Variable ListItem : Type.

Lemma prefix_is_take (b l : list ListItem) :
  b `prefix_of` l -> b = take (length b) l.
Proof. intros [k ->]. by rewrite take_app_length. Qed.

Lemma timeout_in_order (c : ListWithApiComponent ListItem) :
  in_order c -> in_order (timeout c) /\ items (timeout c) = items c.
Proof.
  intros H. pose proof H as [Hpre Htimer]. unfold timeout.
  destruct (timer c) as [[[skip limit] k]|] eqn:E; [|by split].
  specialize (Htimer skip limit k eq_refl).
  destruct (skip <? length (items c)), k; simpl; subst skip;
    try by (split; [split|]).
  - split; [|done]. split; [|done]. simpl. apply prefix_take.
  - split; [|done]. split; [|done]. simpl.
    rewrite (prefix_is_take _ _ Hpre) at 1. rewrite take_take_drop.
    apply prefix_take.
Qed.

Lemma happen_in_order e (c : ListWithApiComponent ListItem) :
  in_order c -> in_order (happen e c) /\ items (happen e c) = items c.
Proof.
  intros H. destruct e as [|event|]; simpl.
  - split; [|done]. destruct H as [Hpre _]. split; [done|].
    by intros skip limit k [= <- _ <-].
  - split; [|unfold onListChange; simpl; by destruct (_ =? _)].
    destruct H as [Hpre Htimer]. unfold onListChange; simpl.
    destruct (_ =? _); simpl; split; try done.
    by intros skip limit k [= <- _ <-].
  - by apply timeout_in_order.
Qed.

Lemma happenings_in_order events : forall c : ListWithApiComponent ListItem,
  in_order c ->
  in_order (fold_left (fun c e => happen e c) events c) /\
  items (fold_left (fun c e => happen e c) events c) = items c.
Proof.
  induction events as [|e events IH]; intros c Hc; [done|].
  simpl. destruct (happen_in_order e c Hc) as [H1 H2].
  destruct (IH _ H1) as [H3 H4]. split; [done|congruence].
Qed.

(** X18.  Whatever happens to the component while its items stay the same
    (changes of the list position, resets, timeouts that fire or are
    superseded), its buffer is always the beginning of its items: no item is
    loaded twice, skipped or out of place. *)
Theorem buffer_is_prefix_of_items (l : list ListItem) events :
  let c := fold_left (fun c e => happen e c) events (created l) in
  buffer c `prefix_of` l /\ items c = l.
Proof.
  intros c.
  assert (in_order (created l)) as H0.
  { split; [apply prefix_nil|]. by intros skip limit k [=]. }
  destruct (happenings_in_order events (created l) H0) as [[H _] H'].
  fold c in H, H'. simpl in H'. split; [|done]. by rewrite <- H'.
Qed.

(** One more chunk. *)
Lemma load_more_buffer (c : ListWithApiComponent ListItem) :
  buffer c `prefix_of` items c ->
  buffer (load_more c) =
  take (length (buffer c) + bufferSize) (items c) /\
  items (load_more c) = items c /\
  loading (load_more c) = false /\
  timer (load_more c) = None.
Proof.
  intros Hpre. unfold load_more, onListChange; simpl.
  rewrite Nat.eqb_refl. unfold timeout; simpl.
  destruct (Nat.ltb_spec (length (buffer c)) (length (items c)))
    as [Hlt|Hge]; simpl.
  - repeat split.
    rewrite (prefix_is_take _ _ Hpre) at 1. by rewrite take_take_drop.
  - repeat split.
    rewrite take_ge by lia.
    rewrite (prefix_is_take _ _ Hpre). by rewrite take_ge.
Qed.

(** X19.  The list is loaded chunk by chunk, in order: after the first chunk
    has arrived, and after the user has [k] times scrolled to the end of the
    buffer and waited for the chunk, the buffer holds the first
    [bufferSize * (k + 1)] items (all of them when there are fewer), and the
    component is not loading. *)
Theorem chunks_load_in_order (l : list ListItem) k :
  let c := Nat.iter k load_more (timeout (reset (created l))) in
  buffer c = take (bufferSize * S k) l /\
  items c = l /\
  timer c = None /\
  (0 < k -> loading c = false).
Proof.
  induction k as [|k IH]; cbn [Nat.iter].
  - unfold timeout, reset, fetchNextChunk, created; cbn [timer items buffer].
    replace (bufferSize * 1) with bufferSize by (unfold bufferSize; lia).
    destruct (Nat.ltb_spec 0 (length l)) as [Hlt|Hge]; cbn;
      repeat split; try lia.
    destruct l; [done|simpl in Hge; lia].
  - destruct IH as (Hb & Hi & Ht & _).
    set (c := Nat.iter k load_more (timeout (reset (created l)))) in *.
    destruct (load_more_buffer c) as (H1 & H2 & H3 & H4).
    { rewrite Hb, Hi. apply prefix_take. }
    rewrite Nat.iter_succ. fold c.
    rewrite H1, H2, Hi, Hb. repeat split; try done.
    destruct (Nat.le_gt_cases (length l) (bufferSize * S k)) as [Hle|Hgt].
    + rewrite !take_ge; [done|lia|]. rewrite length_take. lia.
    + rewrite length_take. f_equal. lia.
Qed.

(** X20.  A reset that comes while a chunk is awaited supersedes the fetch:
    its chunk never arrives, and [loading], which only the arrival of that
    chunk would clear, is still set when the reset has been served and no
    fetch is pending. *)
Theorem superseded_fetch_keeps_loading (c : ListWithApiComponent ListItem) :
  let c' := timeout (reset (onListChange (0, length (buffer c)) c)) in
  loading c' = true /\
  timer c' = None /\
  timeout c' = c'.
Proof.
  intros c'. unfold c', onListChange; simpl. rewrite Nat.eqb_refl.
  unfold timeout; simpl. by destruct (0 <? length (items c)).
Qed.

End ListWithApiProperties.

Lemma chunks_load_in_order_witness :
  loading (Nat.iter 1 load_more (timeout (reset (created [1; 2; 3])))) =
  false.
Proof.
  apply (chunks_load_in_order nat [1; 2; 3] 1). lia.
Defined.
